(** * Bucket relay: capability enforcement (cap-enforcement.js) and the
      relay's message loop, as a shallow embedding.

    Strings are sequences of code units; every comparison the relay makes is
    unit-exact ([===], [startsWith], [endsWith], [slice], [split]).  A unit
    is a number below 256 here, so the strings covered are those of the
    first 256 code points; keys, ids, references and numerals are such.  An
    event
    that reaches the functions below has passed nostr-tools' [verifyEvent]
    (or is rejected at once), so its [pubkey] and [id] are strings, its
    [kind] is a number and its [tags] is an array of arrays of strings.
    A kind is any number: an integer up to 2^53 in magnitude, printed as
    its decimal numeral, or another number (a fraction, a number printed
    with an exponent), known by its print. *)

From Stdlib Require Import ZArith String Ascii List DecimalString QArith Lia.
From Stdlib Require DecimalPos DecimalZ.
From stdpp Require Import base option gmap sets list strings.

Local Open Scope string_scope.

(** ** JavaScript built-ins used by the relay *)

Module JS.

(** [!s] is true for the empty string only; [truthy] is its negation. *)
Definition truthy (s : string) : bool := negb (String.eqb s "").

(** [x && ...] / [!x] on a value that is a string or [undefined]. *)
Definition truthy_opt (o : option string) : bool :=
  match o with
  | Some s => truthy s
  | None => false
  end.

(** [s.length] *)
Definition len (s : string) : Z := Z.of_nat (String.length s).

(** [s.slice(b, e)]: negative indices count from the end, both are clamped
    to [0 .. length]. *)
Definition slice (s : string) (b e : Z) : string :=
  let from := if (b <? 0)%Z then Z.max (len s + b) 0 else Z.min b (len s) in
  let to := if (e <? 0)%Z then Z.max (len s + e) 0 else Z.min e (len s) in
  substring (Z.to_nat from) (Z.to_nat (Z.max (to - from) 0)) s.

(** [s.startsWith(p)] *)
Definition startsWith (s p : string) : bool := String.prefix p s.

(** [s.endsWith(suf)]: the last [suf.length] units of [s] are [suf]. *)
Definition endsWith (s suf : string) : bool :=
  if (String.length suf <=? String.length s)%nat
  then String.eqb
         (substring (String.length s - String.length suf) (String.length suf) s)
         suf
  else false.

(** [s.split(c)] for a one-unit separator: the fields between separators,
    empty fields included; the result is never empty. *)
Fixpoint split (c : ascii) (s : string) : list string :=
  match s with
  | EmptyString => [""]
  | String a rest =>
      if Ascii.eqb a c then "" :: split c rest
      else match split c rest with
           | f :: fs => String a f :: fs
           | [] => [String a ""]
           end
  end.

(** The decimal numeral of an integer. *)
Definition decimal (z : Z) : string :=
  NilZero.string_of_int (Z.to_int z).

(** The integers a number holds exactly, and prints as their decimal
    numeral: those up to 2^53 in magnitude. *)
Definition safe (z : Z) : bool := (Z.abs z <=? 2 ^ 53)%Z.

(** [s] is the decimal numeral of such an integer. *)
Definition safe_print (s : string) : bool :=
  match NilZero.int_of_string s with
  | Some i => safe (Z.of_int i) && String.eqb (decimal (Z.of_int i)) s
  | None => false
  end.

(** The print of a number starts with a digit or a minus sign, or it is
    Infinity or NaN. *)
Definition print_head (s : string) : bool :=
  match s with
  | String a _ =>
      let n := nat_of_ascii a in
      ((48 <=? n)%nat && (n <=? 57)%nat)
      || Ascii.eqb a "-" || Ascii.eqb a "I" || Ascii.eqb a "N"
  | EmptyString => false
  end.

(** A number: an integer up to 2^53 in magnitude, or any other number (1.5,
    1e+21, Infinity), which is known here by the text [`${x}`] gives for
    it.  Each number has one representation: the print of an [Other] is not
    the numeral of a safe integer. *)
Inductive Number :=
| Integer (z : Z) (H : safe z = true)
| Other (print : string)
        (H : print_head print && negb (safe_print print) = true).

(** [`${x}`] for a number. *)
Definition Number_toString (x : Number) : string :=
  match x with
  | Integer z _ => decimal z
  | Other print _ => print
  end.

(** [x === y] on numbers (NaN, which no JSON text denotes, apart). *)
Definition Number_eqb (x y : Number) : bool :=
  match x, y with
  | Integer a _, Integer b _ => (a =? b)%Z
  | Other s _, Other t _ => String.eqb s t
  | _, _ => false
  end.

(** Optional chaining on a string method, printed inside a template:
    [`${x?.slice(0, 8)}`] prints "undefined" when [x] is undefined. *)
Definition show_slice8 (o : option string) : string :=
  match o with
  | Some s => slice s 0 8
  | None => "undefined"
  end.

End JS.

(** A number written as a literal, such as [22242]. *)
Abbreviation num z := (JS.Integer z%Z eq_refl) (only parsing).

(** ** Events and tags *)

(** A tag is an array of strings; [t[i]] is [nth_error t i], [undefined]
    being [None]. *)
Definition Tag := list string.

Record Event := mkEvent {
  id : string;
  pubkey : string;
  kind : JS.Number;
  tags : list Tag
}.

(** [tags.find(t => t[0] === name)] *)
Definition find_tag (name : string) (ts : list Tag) : option Tag :=
  List.find (fun t => match nth_error t 0 with
                      | Some h => String.eqb h name
                      | None => false
                      end) ts.

(** [tags.find(t => t[0] === name)?.[1]] *)
Definition tag_value (name : string) (ts : list Tag) : option string :=
  match find_tag name ts with
  | Some t => nth_error t 1
  | None => None
  end.

(** [event.tags?.find(t => t[0] === 'a' && t[1]?.startsWith('39002:'))] *)
Definition find_commons_tag (ts : list Tag) : option Tag :=
  List.find (fun t => match nth_error t 0, nth_error t 1 with
                      | Some h, Some r =>
                          String.eqb h "a" && JS.startsWith r "39002:"
                      | _, _ => false
                      end) ts.

(** [commonsTag[1]] of the tag found; the predicate guarantees it exists. *)
Definition commons_of (ev : Event) : option string :=
  match find_commons_tag (tags ev) with
  | Some t => nth_error t 1
  | None => None
  end.

(** ** Grants and the two matching helpers *)

(** [action] is [tag[1]] of a cap tag and is undefined for a one-element
    tag; [scope] and [commons] always hold a string (default "*"). *)
Module Grant.
Record t := mk {
  action : option string;
  scope : string;
  commons : string
}.
End Grant.

(** matchesScope(scope, kind) *)
Definition matchesScope (scope : string) (kind : JS.Number) : bool :=
  if String.eqb scope "*" then true
  else if String.eqb scope ("kind:" +:+ JS.Number_toString kind) then true
  else if String.eqb scope (JS.Number_toString kind) then true
  else false.

(** matchesCommons(grantCommons, targetCommons) *)
Definition matchesCommons (grantCommons targetCommons : string) : bool :=
  if String.eqb grantCommons "*" then true
  else if String.eqb grantCommons targetCommons then true
  else if JS.endsWith grantCommons ":*"
  then JS.startsWith targetCommons (JS.slice grantCommons 0 (-1))
  else false.

(** ** The matching predicates as the design document words them *)

(** [s] ends with [suf]. *)
Definition ends_with (s suf : string) : Prop := ∃ p, s = p +:+ suf.

(** [s] starts with [p]. *)
Definition starts_with (s p : string) : Prop := ∃ r, s = p +:+ r.

(** [s] with its last unit removed is [p]. *)
Definition minus_last (s p : string) : Prop := ∃ a, s = p +:+ String a "".

(** CommonsMatches: grantRef is "*", or equals targetRef, or ends with ":*"
    and targetRef starts with grantRef minus its trailing "*". *)
Definition CommonsMatches_spec (grantRef targetRef : string) : Prop :=
  grantRef = "*" ∨ grantRef = targetRef ∨
  (ends_with grantRef ":*" ∧
   ∃ p, minus_last grantRef p ∧ starts_with targetRef p).

(** ScopeMatches: scope is "*", or the kind as a bare number, or
    "kind:<kind>". *)
Definition ScopeMatches_spec (scope : string) (kind : JS.Number) : Prop :=
  scope = "*" ∨ scope = JS.Number_toString kind ∨
  scope = "kind:" +:+ JS.Number_toString kind.

(** ** Numbers read from strings and the clock *)

Module Num.

(** White space that [parseInt] skips: tab, line feed, vertical tab, form
    feed, carriage return, space and no-break space (unit 160).  The other
    white-space units of the language (U+1680, U+2000 to U+200A, U+2028,
    U+2029, U+202F, U+205F, U+3000, U+FEFF) are above 255, beyond the units
    a [string] is made of. *)
Definition is_ws (a : ascii) : bool :=
  match nat_of_ascii a with
  | 9 | 10 | 11 | 12 | 13 | 32 | 160 => true
  | _ => false
  end.

Fixpoint trim_start (s : string) : string :=
  match s with
  | String a r => if is_ws a then trim_start r else s
  | EmptyString => EmptyString
  end.

(** Value of a digit in a radix up to 36. *)
Definition digit_val (a : ascii) : option Z :=
  let n := Z.of_nat (nat_of_ascii a) in
  if (48 <=? n)%Z && (n <=? 57)%Z then Some (n - 48)%Z
  else if (97 <=? n)%Z && (n <=? 122)%Z then Some (n - 87)%Z
  else if (65 <=? n)%Z && (n <=? 90)%Z then Some (n - 55)%Z
  else None.

(** The longest prefix of radix-[R] digits, read as a number; [None] when
    that prefix is empty. *)
Fixpoint digits (R : Z) (acc : option Z) (s : string) : option Z :=
  match s with
  | String a r =>
      match digit_val a with
      | Some d =>
          if (d <? R)%Z
          then digits R (Some (match acc with
                               | Some v => v * R + d
                               | None => d
                               end)%Z) r
          else acc
      | None => acc
      end
  | EmptyString => acc
  end.

(** [parseInt(s)] with no radix: leading white space, a sign, a [0x]
    prefix, then the longest run of digits (a fraction or an exponent that
    follows is not read); [None] is NaN.  The value is the exact integer;
    the number JavaScript returns is this integer rounded to a double,
    which is the same up to 2^53 and, above, compares alike with every
    clock reading (a Date stays below 8.64e15 ms). *)
Definition parseInt (s : string) : option Z :=
  let s0 := trim_start s in
  let '(sign, s1) :=
    match s0 with
    | String "-" r => ((-1)%Z, r)
    | String "+" r => (1%Z, r)
    | _ => (1%Z, s0)
    end in
  let '(R, s2) :=
    match s1 with
    | String "0" (String "x" r) => (16%Z, r)
    | String "0" (String "X" r) => (16%Z, r)
    | _ => (10%Z, s1)
    end in
  option_map (Z.mul sign) (digits R None s2).

(** [x < y] on numbers, false when [x] is NaN. *)
Definition lt (x : option Z) (y : Q) : bool :=
  match x with
  | Some v => negb (Qle_bool y (inject_Z v))
  | None => false
  end.

(** [Date.now() / 1000] for a clock reading of [now] milliseconds. *)
Definition seconds (now : Z) : Q := (inject_Z now / inject_Z 1000)%Q.

End Num.

(** ** State of cap-enforcement.js *)

Module Conn.
(** Per-connection record [{ pubkey, grants, challenge }]; [pubkey] is
    [null] until an AUTH succeeds. *)
Record t := mk {
  pubkey : option string;
  grants : list Grant.t;
  challenge : string
}.
End Conn.

Module AuthResult.
(** How a call of handleAuth ends: it returns [{ ok, message }], or it
    throws, which the message handler of the relay catches.  [ok] holds
    when the call returned with [ok: true]. *)
Inductive t :=
| mk (ok : bool) (message : string)
| thrown.

Definition ok (r : t) : bool :=
  match r with
  | mk b _ => b
  | thrown => false
  end.

Definition message (r : t) : string :=
  match r with
  | mk _ m => m
  | thrown => ""
  end.
End AuthResult.

Module WriteResult.
(** [{ ok, reason }]; [reason] is absent when [ok]. *)
Record t := mk { ok : bool; reason : option string }.
End WriteResult.

(** The two module-level collections. *)
Record CapState := mkCapState {
  connections : gmap string Conn.t;
  enforcedCommons : gset string
}.

Definition AUTH_KIND : JS.Number := num 22242.

(** initConnection(socketId); the challenge string is drawn from
    [Math.random()] and the clock, so it comes in as an argument. *)
Definition initConnection (st : CapState) (socketId challenge : string)
  : CapState * string :=
  (mkCapState (<[socketId := Conn.mk None [] challenge]> (connections st))
              (enforcedCommons st),
   challenge).

(** cleanupConnection(socketId) *)
Definition cleanupConnection (st : CapState) (socketId : string) : CapState :=
  mkCapState (delete socketId (connections st)) (enforcedCommons st).

(** [x || '*'] *)
Definition or_star (o : option string) : string :=
  match o with
  | Some s => if JS.truthy s then s else "*"
  | None => "*"
  end.

(** parseGrants(cap) *)
Definition parseGrants (cap : Event) : list Grant.t :=
  let commons := or_star (tag_value "a" (tags cap)) in
  flat_map (fun tag =>
              match nth_error tag 0 with
              | Some h =>
                  if String.eqb h "cap"
                  then [Grant.mk (nth_error tag 1) (or_star (nth_error tag 2))
                                commons]
                  else []
              | None => []
              end) (tags cap).

(** [a === b] for [a] a string or undefined and [b] a string. *)
Definition opt_eqb (a : option string) (b : string) : bool :=
  match a with
  | Some x => String.eqb x b
  | None => false
  end.

(** processEvent(event) *)
Definition processEvent (st : CapState) (event : Event) : CapState :=
  if JS.Number_eqb (kind event) (num 39002) then
    match tag_value "d" (tags event) with
    | Some dTag =>
        if JS.truthy dTag then
          let commonsRef := "39002:" +:+ pubkey event +:+ ":" +:+ dTag in
          mkCapState (connections st) ({[commonsRef]} ∪ enforcedCommons st)
        else st
    | None => st
    end
  else st.

(** canWrite(socketId, event) *)
Definition canWrite (st : CapState) (socketId : string) (event : Event)
  : WriteResult.t :=
  match find_commons_tag (tags event) with
  | None => WriteResult.mk true None
  | Some commonsTag =>
      match nth_error commonsTag 1 with
      | None => WriteResult.mk true None
      | Some commons =>
          if negb (bool_decide (commons ∈ enforcedCommons st))
          then WriteResult.mk true None
          else
            let collectivePubkey := nth_error (JS.split ":" commons) 1 in
            if opt_eqb collectivePubkey (pubkey event)
            then WriteResult.mk true None
            else
              match connections st !! socketId with
              | None =>
                  WriteResult.mk false
                    (Some "auth-required: authentication required")
              | Some conn =>
                  match Conn.pubkey conn with
                  | None =>
                      WriteResult.mk false
                        (Some "auth-required: authentication required")
                  | Some cpk =>
                      if negb (JS.truthy cpk)
                      then WriteResult.mk false
                             (Some "auth-required: authentication required")
                      else if negb (String.eqb (pubkey event) cpk)
                      then WriteResult.mk false
                             (Some ("blocked: pubkey mismatch (auth="
                                    +:+ JS.slice cpk 0 8 +:+ ", event="
                                    +:+ JS.slice (pubkey event) 0 8 +:+ ")"))
                      else
                        let hasGrant :=
                          existsb (fun g =>
                                     opt_eqb (Grant.action g) "publish"
                                     && matchesScope (Grant.scope g) (kind event)
                                     && matchesCommons (Grant.commons g) commons)
                                  (Conn.grants conn) in
                        if negb hasGrant
                        then WriteResult.mk false
                               (Some ("blocked: no publish grant for kind:"
                                      +:+ JS.Number_toString (kind event)
                                      +:+ " in " +:+ commons))
                        else WriteResult.mk true None
                  end
              end
      end
  end.

(** canRead(socketId, event) *)
Definition canRead (st : CapState) (socketId : string) (event : Event)
  : bool :=
  match find_commons_tag (tags event) with
  | None => true
  | Some commonsTag =>
      match nth_error commonsTag 1 with
      | None => true
      | Some commons =>
          if negb (bool_decide (commons ∈ enforcedCommons st)) then true
          else
            match connections st !! socketId with
            | None => false
            | Some conn =>
                if negb (JS.truthy_opt (Conn.pubkey conn)) then false
                else
                  let hasGrant :=
                    existsb (fun g =>
                               (opt_eqb (Grant.action g) "access"
                                || opt_eqb (Grant.action g) "publish")
                               && matchesCommons (Grant.commons g) commons)
                            (Conn.grants conn) in
                  if negb hasGrant then false else true
            end
      end
  end.

(** ** Library functions the relay calls *)

(** What a JSON text denotes, as far as handleAuth looks at it: an
    event-shaped object (what [verifyEvent] takes and answers true or false
    on), or any other value (null, a number, an object without the fields
    of an event); on such a value [verifyEvent] throws, as it does on null,
    or answers false, and [raises] tells which. *)
Inductive Json :=
| JsonEvent (e : Event)
| JsonOther (raises : bool).

(** nostr-tools' [verifyEvent] and [matchFilters] and the built-in
    [JSON.parse] are used as they come.  [JSON_parse] is [None] where
    [JSON.parse] throws.  [Filters] is the array of filter objects of a
    REQ. *)
Class Externals := {
  Filters : Type;
  verifyEvent : Event → bool;
  JSON_parse : string → option Json;
  matchFilters : Filters → Event → bool
}.

Section CapAuth.
Context `{X : Externals}.

(** handleAuth(socketId, authEvent), run when the clock reads [now]
    milliseconds. *)
Definition handleAuth (st : CapState) (socketId : string) (authEvent : Event)
    (now : Z) : CapState * AuthResult.t :=
  match connections st !! socketId with
  | None => (st, AuthResult.mk false "connection not initialized")
  | Some conn =>
      if negb (JS.Number_eqb (kind authEvent) AUTH_KIND)
      then (st, AuthResult.mk false
                  ("invalid auth kind: expected "
                   +:+ JS.Number_toString AUTH_KIND +:+ ", got "
                   +:+ JS.Number_toString (kind authEvent)))
      else if negb (verifyEvent authEvent)
      then (st, AuthResult.mk false "invalid auth signature")
      else
        let challengeTag := find_tag "challenge" (tags authEvent) in
        if match challengeTag with
           | None => true
           | Some t => negb (opt_eqb (nth_error t 1) (Conn.challenge conn))
           end
        then (st, AuthResult.mk false "invalid or missing challenge")
        else
          let capTag := find_tag "cap" (tags authEvent) in
          match match capTag with
                | None => None
                | Some t => match nth_error t 1 with
                            | Some s => if JS.truthy s then Some s else None
                            | None => None
                            end
                end
          with
          | None =>
              (mkCapState
                 (<[socketId := Conn.mk (Some (pubkey authEvent)) []
                                        (Conn.challenge conn)]>
                    (connections st))
                 (enforcedCommons st),
               AuthResult.mk true "authenticated")
          | Some capJson =>
              match JSON_parse capJson with
              | None => (st, AuthResult.mk false "invalid cap JSON")
              | Some (JsonOther raises) =>
                  if raises then (st, AuthResult.thrown)
                  else (st, AuthResult.mk false "invalid cap signature")
              | Some (JsonEvent cap) =>
                  if negb (verifyEvent cap)
                  then (st, AuthResult.mk false "invalid cap signature")
                  else
                    let grantee := tag_value "p" (tags cap) in
                    if negb (opt_eqb grantee (pubkey authEvent))
                    then (st, AuthResult.mk false
                                ("grantee mismatch: cap="
                                 +:+ JS.show_slice8 grantee +:+ ", auth="
                                 +:+ JS.slice (pubkey authEvent) 0 8))
                    else
                      let expiry := tag_value "expiry" (tags cap) in
                      if JS.truthy_opt expiry
                         && Num.lt (match expiry with
                                    | Some e => Num.parseInt e
                                    | None => None
                                    end) (Num.seconds now)
                      then (st, AuthResult.mk false "cap expired")
                      else
                        let grants := parseGrants cap in
                        (mkCapState
                           (<[socketId := Conn.mk (Some (pubkey authEvent))
                                                  grants
                                                  (Conn.challenge conn)]>
                              (connections st))
                           (enforcedCommons st),
                         AuthResult.mk true "authenticated")
              end
          end
  end.

End CapAuth.

(** ** The relay's message loop *)

(** Messages the relay sends. *)
Inductive OutMsg :=
| OutAUTH (challenge : string)
| OutOK (id : string) (accepted : bool) (message : string)
| OutEVENT (lsubid : string) (event : Event)
| OutEOSE (lsubid : string).

Section RelayTypes.
Context `{X : Externals}.

(** Messages the relay receives, parsed; [Other] is any other first
    element. *)
Inductive InMsg :=
| AUTH (authEvent : Event)
| EVENT (event : Event)
| REQ (lsubid : string) (filters : Filters)
| CLOSE (lsubid : string)
| Other.

(** What happens to the process: a socket connects (its id and challenge
    are random draws), a message arrives on a socket while the clock reads
    [now], a socket closes, the eviction timer fires. *)
Inductive Input :=
| Connect (socketId challenge : string)
| Message (socketId : string) (m : InMsg) (now : Z)
| Disconnect (socketId : string)
| Tick.

(** The closure [makecb(lsubid, filters)] made on socket [socketId]. *)
Record Callback := mkCallback {
  cb_socketId : string;
  cb_lsubid : string;
  cb_filters : Filters
}.

End RelayTypes.

(** A JavaScript [Map] kept in insertion order. *)
Module OMap.
Section OMap.
Context {V : Type}.

(** [m.set(k, v)]: replace in place, or append. *)
Fixpoint set (k : string) (v : V) (m : list (string * V))
  : list (string * V) :=
  match m with
  | [] => [(k, v)]
  | (k', v') :: rest =>
      if String.eqb k' k then (k, v) :: rest else (k', v') :: set k v rest
  end.

(** [m.delete(k)] *)
Definition delete (k : string) (m : list (string * V)) : list (string * V) :=
  List.filter (fun kv => negb (String.eqb (fst kv) k)) m.

(** [m.values()] *)
Definition values (m : list (string * V)) : list V := List.map snd m.

End OMap.
End OMap.

Section RelayLoop.
Context `{X : Externals}.

(** [gsubs] and [events] are the relay's two maps, [lsubs] the map each
    connection handler keeps for its socket, [cap] the state of
    cap-enforcement.js. *)
Record Relay := mkRelay {
  cap : CapState;
  gsubs : list (string * Callback);
  events : list (string * Event);
  lsubs : gmap string (list (string * string))
}.

(** Sends are collected with the socket they go to. *)
Definition Sent : Type := list (string * OutMsg).

(** The callback [makecb(lsubid, filters)] applied to [event]. *)
Definition makecb (st : CapState) (cb : Callback) (event : Event) : Sent :=
  if matchFilters (cb_filters cb) event then
    if negb (canRead st (cb_socketId cb) event) then []
    else [(cb_socketId cb, OutEVENT (cb_lsubid cb) event)]
  else [].

(** The REQ loop over [events.values()]. *)
Definition sendStored (st : CapState) (socketId lsubid : string)
    (filters : Filters) (evs : list Event) : Sent :=
  flat_map (fun event =>
              if matchFilters filters event then
                if negb (canRead st socketId event) then []
                else [(socketId, OutEVENT lsubid event)]
              else []) evs.

(** socket.on('message') for a parsed message. *)
Definition onMessage (r : Relay) (socketId : string) (m : InMsg) (now : Z)
  : Relay * Sent :=
  match m with
  | AUTH authEvent =>
      let '(st, result) := handleAuth (cap r) socketId authEvent now in
      (mkRelay st (gsubs r) (events r) (lsubs r),
       match result with
       | AuthResult.mk ok message =>
           [(socketId, OutOK (id authEvent) ok message)]
       | AuthResult.thrown => []
       end)
  | EVENT event =>
      if negb (verifyEvent event)
      then (r, [(socketId, OutOK (id event) false
                              "invalid: signature verification failed")])
      else
        let writeCheck := canWrite (cap r) socketId event in
        if negb (WriteResult.ok writeCheck)
        then (r, [(socketId,
                   OutOK (id event) false
                         (match WriteResult.reason writeCheck with
                          | Some reason => reason
                          | None => "undefined"
                          end))])
        else
          let st := processEvent (cap r) event in
          let evs := OMap.set (id event) event (events r) in
          (mkRelay st (gsubs r) evs (lsubs r),
           (flat_map (fun cb => makecb st cb event) (OMap.values (gsubs r))
            ++ [(socketId, OutOK (id event) true "")])%list)
  | REQ lsubid filters =>
      let gsubid := socketId +:+ ":" +:+ lsubid in
      let ls := OMap.set lsubid gsubid (default [] (lsubs r !! socketId)) in
      let gs := OMap.set gsubid (mkCallback socketId lsubid filters)
                         (gsubs r) in
      (mkRelay (cap r) gs (events r) (<[socketId := ls]> (lsubs r)),
       (sendStored (cap r) socketId lsubid filters (OMap.values (events r))
        ++ [(socketId, OutEOSE lsubid)])%list)
  | CLOSE lsubid =>
      let gsubid := socketId +:+ ":" +:+ lsubid in
      let ls := OMap.delete lsubid (default [] (lsubs r !! socketId)) in
      (mkRelay (cap r) (OMap.delete gsubid (gsubs r)) (events r)
               (<[socketId := ls]> (lsubs r)),
       [])
  | Other => (r, [])
  end.

(** One turn of the process. *)
Definition step (r : Relay) (i : Input) : Relay * Sent :=
  match i with
  | Connect socketId challenge =>
      let '(st, ch) := initConnection (cap r) socketId challenge in
      (mkRelay st (gsubs r) (events r) (<[socketId := []]> (lsubs r)),
       [(socketId, OutAUTH ch)])
  | Message socketId m now => onMessage r socketId m now
  | Disconnect socketId =>
      let gs := fold_left (fun g kv => OMap.delete (snd kv) g)
                          (default [] (lsubs r !! socketId)) (gsubs r) in
      (mkRelay (cleanupConnection (cap r) socketId) gs (events r)
               (delete socketId (lsubs r)),
       [])
  | Tick => (mkRelay (cap r) (gsubs r) [] (lsubs r), [])
  end.

(** The process after a sequence of turns. *)
Definition run (r : Relay) (inputs : list Input) : Relay :=
  fold_left (fun r i => fst (step r i)) inputs r.

(** The process at start-up. *)
Definition boot : Relay :=
  mkRelay (mkCapState ∅ ∅) [] [] ∅.

End RelayLoop.

(** ** Vocabulary of the design document *)

(** The owner identity of a commons reference: its second colon-delimited
    field. *)
Definition owner_field (commonsRef : string) : option string :=
  nth_error (JS.split ":" commonsRef) 1.

(** An identity without a colon in it (a public key is hexadecimal). *)
Fixpoint colon_free (s : string) : bool :=
  match s with
  | EmptyString => true
  | String a rest => negb (Ascii.eqb a ":") && colon_free rest
  end.

(** A connection is authenticated when its record exists and holds an
    identity. *)
Definition authenticated (st : CapState) (socketId : string) : bool :=
  match connections st !! socketId with
  | Some conn => JS.truthy_opt (Conn.pubkey conn)
  | None => false
  end.

(** A connection authenticated as identity [pk]. *)
Definition authenticated_as (st : CapState) (socketId pk : string) : Prop :=
  ∃ conn, connections st !! socketId = Some conn
          ∧ Conn.pubkey conn = Some pk ∧ pk ≠ "".

(** The grants held by a connection (none when it has no record). *)
Definition grants_of (st : CapState) (socketId : string) : list Grant.t :=
  match connections st !! socketId with
  | Some conn => Conn.grants conn
  | None => []
  end.

(** A grant that lets its holder publish events of [kind] to [commonsRef]. *)
Definition publish_grant (kind : JS.Number) (commonsRef : string)
    (g : Grant.t)
  : Prop :=
  Grant.action g = Some "publish"
  ∧ ScopeMatches_spec (Grant.scope g) kind
  ∧ CommonsMatches_spec (Grant.commons g) commonsRef.

(** A grant that lets its holder read from [commonsRef]. *)
Definition read_grant (commonsRef : string) (g : Grant.t) : Prop :=
  (Grant.action g = Some "access" ∨ Grant.action g = Some "publish")
  ∧ CommonsMatches_spec (Grant.commons g) commonsRef.

(** Two grants that differ at most in their scope. *)
Definition same_but_scope (g h : Grant.t) : Prop :=
  Grant.action g = Grant.action h ∧ Grant.commons g = Grant.commons h.

(** The event carries an [a] tag whose value is [c]. *)
Definition tagged_with (event : Event) (c : string) : Prop :=
  ∃ t, In t (tags event)
       ∧ nth_error t 0 = Some "a" ∧ nth_error t 1 = Some c.

(** The write rule for unauthenticated connections as the design document
    words it, for every event tagged with an enforced reference. *)
Definition tagged_write_needs_auth : Prop :=
  ∀ (st : CapState) (socketId : string) (event : Event) (c : string),
    tagged_with event c → c ∈ enforcedCommons st →
    owner_field c ≠ Some (pubkey event) →
    authenticated st socketId = false →
    ∃ reason, canWrite st socketId event = WriteResult.mk false (Some reason)
              ∧ starts_with reason "auth-required:".

(** The write rule for grant holders as the design document words it. *)
Definition tagged_write_needs_grant : Prop :=
  ∀ (st : CapState) (socketId : string) (event : Event) (c : string),
    tagged_with event c → c ∈ enforcedCommons st →
    authenticated_as st socketId (pubkey event) →
    owner_field c ≠ Some (pubkey event) →
    (WriteResult.ok (canWrite st socketId event) = true
     ↔ ∃ g, In g (grants_of st socketId) ∧ publish_grant (kind event) c g).

(** The read rule as the design document words it. *)
Definition tagged_read_needs_grant : Prop :=
  ∀ (st : CapState) (socketId : string) (event : Event) (c : string),
    tagged_with event c → c ∈ enforcedCommons st →
    (canRead st socketId event = true
     ↔ authenticated st socketId = true
       ∧ ∃ g, In g (grants_of st socketId) ∧ read_grant c g).

(** The value of a decimal digit. *)
Definition dec_digit (a : ascii) : option Z :=
  match Num.digit_val a with
  | Some d => if (d <? 10)%Z then Some d else None
  | None => None
  end.

(** The digits after the point, [n / d] being the value read so far. *)
Fixpoint fraction_value (s : string) (n : Z) (d : positive) : option Q :=
  match s with
  | EmptyString => Some (n # d)
  | String a r =>
      match dec_digit a with
      | Some k => fraction_value r (n * 10 + k)%Z (d * 10)%positive
      | None => None
      end
  end.

Fixpoint numeral_value (s : string) (n : Z) : option Q :=
  match s with
  | EmptyString => Some (inject_Z n)
  | String a r =>
      if Ascii.eqb a "."
      then fraction_value r n 1
      else match dec_digit a with
           | Some k => numeral_value r (n * 10 + k)%Z
           | None => None
           end
  end.

(** The numeric value of a text, as the design document says of the expiry
    tag: the number a decimal numeral stands for, fraction included. *)
Definition numeric_value (s : string) : option Q :=
  match s with
  | EmptyString => None
  | _ => numeral_value s 0
  end.

(** The connection's challenge, when it has a record. *)
Definition challenge_of (st : CapState) (socketId : string) : option string :=
  Conn.challenge <$> connections st !! socketId.

Section Vocabulary.
Context `{X : Externals}.

(** The relay accepts a published event: its signature verifies and the
    write check passes. *)
Definition accepted (r : Relay) (socketId : string) (event : Event) : bool :=
  verifyEvent event && WriteResult.ok (canWrite (cap r) socketId event).

(** Turn [i] is the acceptance of a kind-39002 event whose [d] tag has a
    non-empty value, and [c] is the reference made from it. *)
Definition registers (r : Relay) (i : Input) (c : string) : Prop :=
  ∃ socketId event now dTag,
    i = Message socketId (EVENT event) now
    ∧ accepted r socketId event = true
    ∧ kind event = num 39002
    ∧ tag_value "d" (tags event) = Some dTag
    ∧ dTag ≠ ""
    ∧ c = "39002:" +:+ pubkey event +:+ ":" +:+ dTag.

(** Registration as the design document words it: every accepted
    kind-39002 event carrying a [d] tag enforces
    39002:<author>:<dTagValue>. *)
Definition registers_every_d_tag : Prop :=
  ∀ (r : Relay) (socketId : string) (event : Event) (now : Z) (dTag : string),
    accepted r socketId event = true →
    kind event = num 39002 →
    tag_value "d" (tags event) = Some dTag →
    ("39002:" +:+ pubkey event +:+ ":" +:+ dTag)
      ∈ enforcedCommons
          (cap (fst (step r (Message socketId (EVENT event) now)))).

(** The capability an AUTH event presents: the value of its first [cap]
    tag when that value is a non-empty string. *)
Definition presented_cap (authEvent : Event) : option string :=
  match tag_value "cap" (tags authEvent) with
  | Some s => if JS.truthy s then Some s else None
  | None => None
  end.

(** The grants an AUTH event brings: those parsed from the capability it
    presents, none when it presents no capability. *)
Definition auth_grants (authEvent : Event) : list Grant.t :=
  match presented_cap authEvent with
  | Some capJson =>
      match JSON_parse capJson with
      | Some (JsonEvent cap) => parseGrants cap
      | _ => []
      end
  | None => []
  end.

(** The AUTH event passes every check that comes before the expiry check,
    presenting the capability [cap]. *)
Definition reaches_expiry_check (st : CapState) (socketId : string)
    (authEvent cap : Event) : Prop :=
  ∃ conn capJson,
    connections st !! socketId = Some conn
    ∧ kind authEvent = AUTH_KIND
    ∧ verifyEvent authEvent = true
    ∧ tag_value "challenge" (tags authEvent) = Some (Conn.challenge conn)
    ∧ presented_cap authEvent = Some capJson
    ∧ JSON_parse capJson = Some (JsonEvent cap)
    ∧ verifyEvent cap = true
    ∧ tag_value "p" (tags cap) = Some (pubkey authEvent).

(** The expiry rule as the design document words it: an expiry whose
    numeric value is at or above the current time in seconds does not fail
    the check. *)
Definition expiry_by_numeric_value : Prop :=
  ∀ (st : CapState) (socketId : string) (authEvent cap : Event) (now : Z)
    (x : string) (q : Q),
    reaches_expiry_check st socketId authEvent cap →
    tag_value "expiry" (tags cap) = Some x →
    numeric_value x = Some q →
    (Num.seconds now <= q)%Q →
    snd (handleAuth st socketId authEvent now)
    ≠ AuthResult.mk false "cap expired".

End Vocabulary.

(** ** A small relay to run scenarios on *)

Module Sample.

(** The capability A issues to B: publish kind 1 in any commons of A. *)
Definition capB : Event :=
  mkEvent "cap-b" "A" (num 29000)
    [["p"; "B"]; ["a"; "39002:A:*"]; ["cap"; "publish"; "kind:1"]].

(** A second capability for B: read access only, expiring at second 100. *)
Definition capB_read : Event :=
  mkEvent "cap-b-read" "A" (num 29000)
    [["p"; "B"]; ["a"; "39002:A:g"]; ["expiry"; "100"]; ["cap"; "access"]].

(** A third one, expiring at second 100.9. *)
Definition capB_frac : Event :=
  mkEvent "cap-b-frac" "A" (num 29000)
    [["p"; "B"]; ["a"; "39002:A:g"]; ["expiry"; "100.9"]; ["cap"; "access"]].

(** Signatures verify except on the event marked forged; three capability
    texts parse; a filter is a list of kinds. *)
Definition X : Externals := {|
  Filters := list JS.Number;
  verifyEvent := fun e => negb (String.eqb (id e) "forged");
  JSON_parse := fun s =>
    if String.eqb s "cap-b-json" then Some (JsonEvent capB)
    else if String.eqb s "cap-b-read-json" then Some (JsonEvent capB_read)
    else if String.eqb s "cap-b-frac-json" then Some (JsonEvent capB_frac)
    else None;
  matchFilters := fun fs e => existsb (JS.Number_eqb (kind e)) fs
|}.

(** A registers the commons "general"... *)
Definition register_g : Event :=
  mkEvent "e-reg" "A" (num 39002) [["d"; "g"]].

(** ...and one whose [d] tag is empty. *)
Definition register_empty : Event :=
  mkEvent "e-reg0" "A" (num 39002) [["d"; ""]].

(** A note of [kind] by [author] in A's commons "g". *)
Definition note (author : string) (kind : JS.Number) : Event :=
  mkEvent "e-note" author kind [["a"; "39002:A:g"]].

(** B's AUTH with the publish capability, and with the read one; A's AUTH
    with no capability. *)
Definition authB : Event :=
  mkEvent "e-auth-b" "B" (num 22242)
    [["challenge"; "ch-b"]; ["cap"; "cap-b-json"]].

Definition authB_read : Event :=
  mkEvent "e-auth-b2" "B" (num 22242)
    [["challenge"; "ch-b"]; ["cap"; "cap-b-read-json"]].

Definition authB_plain : Event :=
  mkEvent "e-auth-b3" "B" (num 22242) [["challenge"; "ch-b"]].

Definition authB_frac : Event :=
  mkEvent "e-auth-b5" "B" (num 22242)
    [["challenge"; "ch-b"]; ["cap"; "cap-b-frac-json"]].

(** B's AUTH answering a challenge the relay never issued. *)
Definition authB_stale : Event :=
  mkEvent "e-auth-b4" "B" (num 22242)
    [["challenge"; "other"]; ["cap"; "cap-b-read-json"]].

(** A has registered "g"; B is connected and not authenticated. *)
Definition enforced : Relay (X := X) :=
  run boot [Connect "sock-a" "ch-a";
            Message "sock-a" (EVENT register_g) 0;
            Connect "sock-b" "ch-b"].

(** ... and B has authenticated with the publish capability. *)
Definition granted : Relay (X := X) :=
  run enforced [Message "sock-b" (AUTH authB) 50000].

(** ... or B has authenticated without a capability. *)
Definition plain : Relay (X := X) :=
  run enforced [Message "sock-b" (AUTH authB_plain) 0].

(** A's socket is open and nothing is registered yet. *)
Definition connected : Relay (X := X) := run boot [Connect "sock-a" "ch-a"].

(** A note by [author] that names a commons nobody registered before it
    names A's commons "g". *)
Definition decoy (author : string) : Event :=
  mkEvent "e-decoy" author (num 1)
    [["a"; "39002:X:free"]; ["a"; "39002:A:g"]].

End Sample.
(** ** Further vocabulary: AUTH outcomes, subscriptions, the event store *)

Section MoreVocabulary.
Context `{X : Externals}.

(** The capability's expiry tag reads as a number below the clock. *)
Definition cap_expired (cap : Event) (now : Z) : Prop :=
  ∃ x v, tag_value "expiry" (tags cap) = Some x
         ∧ Num.parseInt x = Some v
         ∧ (inject_Z v < Num.seconds now)%Q.

(** Everything handleAuth asks of an AUTH event: a record for the socket,
    the AUTH kind, a valid signature, the connection's challenge, and
    either no capability or one that parses, verifies, names the author as
    grantee and has not expired. *)
Definition auth_passes (st : CapState) (socketId : string)
    (authEvent : Event) (now : Z) : Prop :=
  ∃ conn,
    connections st !! socketId = Some conn
    ∧ kind authEvent = AUTH_KIND
    ∧ verifyEvent authEvent = true
    ∧ tag_value "challenge" (tags authEvent) = Some (Conn.challenge conn)
    ∧ (presented_cap authEvent = None
       ∨ ∃ cap, reaches_expiry_check st socketId authEvent cap
                ∧ ¬ cap_expired cap now).

(** The key a REQ on [socketId] files the subscription [lsubid] under. *)
Definition gsubid (socketId lsubid : string) : string :=
  socketId +:+ ":" +:+ lsubid.

(** Every global subscription sits under the key made of its own socket
    and local id. *)
Definition subs_keyed (r : Relay) : Prop :=
  ∀ k cb, In (k, cb) (gsubs r) →
          k = gsubid (cb_socketId cb) (cb_lsubid cb).

(** Every global subscription is listed in the local map of its socket. *)
Definition subs_tracked (r : Relay) : Prop :=
  ∀ k cb, In (k, cb) (gsubs r) →
          ∃ ls, lsubs r !! cb_socketId cb = Some ls
                ∧ In (cb_lsubid cb, k) ls.

(** No two entries of a map share a key. *)
Definition keys_unique {V : Type} (m : list (string * V)) : Prop :=
  NoDup (List.map fst m).

(** The socket is open: its connection handler is alive. *)
Definition is_open (r : Relay) (socketId : string) : Prop :=
  is_Some (lsubs r !! socketId).

(** Open sockets and connection records go together. *)
Definition records_follow_sockets (r : Relay) : Prop :=
  ∀ socketId, is_Some (connections (cap r) !! socketId)
              ↔ is_open r socketId.

(** A turn that can happen: a socket connects under an id not in use,
    messages arrive on open sockets, open sockets close. *)
Definition can_happen (r : Relay) (i : Input) : Prop :=
  match i with
  | Connect socketId _ => lsubs r !! socketId = None
  | Message socketId _ _ => is_open r socketId
  | Disconnect socketId => is_open r socketId
  | Tick => True
  end.

(** A sequence of turns each of which can happen when its time comes. *)
Fixpoint can_run (r : Relay) (inputs : list Input) : Prop :=
  match inputs with
  | [] => True
  | i :: rest => can_happen r i ∧ can_run (fst (step r i)) rest
  end.

(** What the relay keeps true of its maps. *)
Definition relay_ok (r : Relay) : Prop :=
  subs_keyed r ∧ subs_tracked r ∧ keys_unique (gsubs r)
  ∧ keys_unique (events r) ∧ records_follow_sockets r.

(** The stored events a REQ answers with: those its filters match and its
    socket may read. *)
Definition visible (st : CapState) (socketId : string) (filters : Filters)
    (event : Event) : bool :=
  matchFilters filters event && canRead st socketId event.

End MoreVocabulary.

(** The references an event registers when it is processed: one for a
    kind-39002 event with a non-empty [d] tag value, none otherwise. *)
Definition registered_by (event : Event) : gset string :=
  if JS.Number_eqb (kind event) (num 39002) then
    match tag_value "d" (tags event) with
    | Some dTag =>
        if JS.truthy dTag
        then {["39002:" +:+ pubkey event +:+ ":" +:+ dTag]}
        else ∅
    | None => ∅
    end
  else ∅.

(** The number a string of decimal digits stands for, read left to right
    onto [acc]. *)
Fixpoint uint_value (d : Decimal.uint) (acc : Z) : Z :=
  match d with
  | Decimal.Nil => acc
  | Decimal.D0 d => uint_value d (acc * 10 + 0)
  | Decimal.D1 d => uint_value d (acc * 10 + 1)
  | Decimal.D2 d => uint_value d (acc * 10 + 2)
  | Decimal.D3 d => uint_value d (acc * 10 + 3)
  | Decimal.D4 d => uint_value d (acc * 10 + 4)
  | Decimal.D5 d => uint_value d (acc * 10 + 5)
  | Decimal.D6 d => uint_value d (acc * 10 + 6)
  | Decimal.D7 d => uint_value d (acc * 10 + 7)
  | Decimal.D8 d => uint_value d (acc * 10 + 8)
  | Decimal.D9 d => uint_value d (acc * 10 + 9)
  end%Z.

(** The number of [cap] tags of a capability. *)
Definition cap_tag_count (cap : Event) : nat :=
  List.length
    (List.filter (fun t => opt_eqb (nth_error t 0) "cap") (tags cap)).

(** ** More scenarios *)

Module Scenario.

(** A capability B signs for itself, over A's commons. *)
Definition selfcap : Event :=
  mkEvent "cap-self" "B" (num 29000)
    [["p"; "B"]; ["a"; "39002:A:g"]; ["cap"; "publish"]].

(** The sample relay's library, knowing one more capability text. *)
Definition X : Externals := {|
  Filters := list JS.Number;
  verifyEvent := fun e => negb (String.eqb (id e) "forged");
  JSON_parse := fun s =>
    if String.eqb s "cap-self-json" then Some (JsonEvent selfcap)
    else @JSON_parse Sample.X s;
  matchFilters := fun fs e => existsb (JS.Number_eqb (kind e)) fs
|}.

Definition authB_self : Event :=
  mkEvent "e-auth-self" "B" (num 22242)
    [["challenge"; "ch-b"]; ["cap"; "cap-self-json"]].

(** A registers "g"; B and C connect; B subscribes to kinds 1 and 2 as
    "feed"; C subscribes to kind 1 as "all". *)
Definition subscribed_turns : list (Input (X := X)) :=
  [Connect "sock-a" "ch-a";
   Message "sock-a" (EVENT Sample.register_g) 0;
   Connect "sock-b" "ch-b";
   Connect "sock-c" "ch-c";
   Message "sock-b" (REQ (X := X) "feed" [num 1; num 2]) 0;
   Message "sock-c" (REQ (X := X) "all" [num 1]) 0].

Definition subscribed : Relay (X := X) := run boot subscribed_turns.

(** A has registered "g"; B is connected and not authenticated. *)
Definition registered : Relay (X := X) :=
  run boot [Connect "sock-a" "ch-a";
            Message "sock-a" (EVENT Sample.register_g) 0;
            Connect "sock-b" "ch-b"].

(** A kind-1 note outside any commons. *)
Definition free_note : Event := mkEvent "e-free" "C" (num 1) [["t"; "x"]].

End Scenario.

(** ** String lemmas *)

Section StringFacts.

Lemma append_cons (a : ascii) (s r : string) :
  String a s +:+ r = String a (s +:+ r).
Proof. reflexivity. Qed.

Lemma append_nil_r (s : string) : s +:+ "" = s.
Proof.
  induction s as [|a s IH]; [reflexivity|]. now rewrite append_cons, IH.
Qed.

Lemma append_assoc (a b c : string) : (a +:+ b) +:+ c = a +:+ (b +:+ c).
Proof.
  induction a as [|x a IH]; [reflexivity|]. now rewrite !append_cons, IH.
Qed.

Lemma length_append (a b : string) :
  String.length (a +:+ b) = (String.length a + String.length b)%nat.
Proof.
  induction a as [|x a IH]; [reflexivity|].
  rewrite append_cons. simpl. now rewrite IH.
Qed.

Lemma substring_0_0 (s : string) : substring 0 0 s = "".
Proof. destruct s; reflexivity. Qed.

Lemma substring_0_append (p r : string) :
  substring 0 (String.length p) (p +:+ r) = p.
Proof.
  induction p as [|x p IH].
  - apply substring_0_0.
  - rewrite append_cons. simpl. now rewrite IH.
Qed.

Lemma substring_skip_append (p r : string) :
  substring (String.length p) (String.length r) (p +:+ r) = r.
Proof.
  induction p as [|x p IH]; [|rewrite append_cons; exact IH].
  change ("" +:+ r) with r. change (String.length "") with 0%nat.
  induction r as [|y r IHr]; simpl; [reflexivity | now rewrite IHr].
Qed.

Lemma substring_0_length (s : string) : substring 0 (String.length s) s = s.
Proof. induction s as [|a s IH]; simpl; [reflexivity | now rewrite IH]. Qed.

Lemma substring_split (n : nat) (s : string) :
  (n ≤ String.length s)%nat →
  s = substring 0 n s +:+ substring n (String.length s - n) s.
Proof.
  revert s. induction n as [|n IH]; intros s Hn.
  - rewrite substring_0_0, Nat.sub_0_r, substring_0_length. reflexivity.
  - destruct s as [|a s]; simpl in *; [lia|].
    rewrite append_cons. f_equal. apply IH. lia.
Qed.

Lemma startsWith_iff (s p : string) :
  JS.startsWith s p = true ↔ starts_with s p.
Proof.
  unfold JS.startsWith, starts_with. rewrite prefix_correct. split.
  - intros H.
    destruct (le_lt_dec (String.length p) (String.length s)) as [Hle|Hlt].
    + exists (substring (String.length p) (String.length s - String.length p) s).
      rewrite <- H at 1. now apply substring_split.
    + exfalso. assert (Hlen : (String.length (substring 0 (String.length p) s)
                                ≤ String.length s)%nat).
      { clear. generalize (String.length p). intros n. revert n.
        induction s as [|a s IH]; intros [|n]; simpl; try lia.
        specialize (IH n). lia. }
      rewrite H in Hlen. lia.
  - intros [r ->]. apply substring_0_append.
Qed.

Lemma endsWith_iff (s suf : string) :
  JS.endsWith s suf = true ↔ ends_with s suf.
Proof.
  unfold JS.endsWith, ends_with. split.
  - destruct (Nat.leb_spec (String.length suf) (String.length s)) as [Hle|Hlt];
      [|discriminate].
    intros H. apply String.eqb_eq in H.
    exists (substring 0 (String.length s - String.length suf) s).
    pose proof (substring_split (String.length s - String.length suf) s
                  ltac:(lia)) as Hs.
    replace (String.length s - (String.length s - String.length suf))%nat
      with (String.length suf) in Hs by lia.
    rewrite H in Hs. exact Hs.
  - intros [p ->]. rewrite length_append.
    destruct (Nat.leb_spec (String.length suf)
                (String.length p + String.length suf)) as [_|Hlt]; [|lia].
    replace (String.length p + String.length suf - String.length suf)%nat
      with (String.length p) by lia.
    rewrite substring_skip_append. apply String.eqb_refl.
Qed.

Lemma slice_drop_last (p : string) (a : ascii) :
  JS.slice (p +:+ String a "") 0 (-1) = p.
Proof.
  unfold JS.slice, JS.len. rewrite length_append. simpl String.length.
  change (0 <? 0)%Z with false. change (-1 <? 0)%Z with true. cbv iota.
  rewrite Z.min_l by lia.
  replace (Z.to_nat 0) with 0%nat by reflexivity.
  replace (Z.to_nat _) with (String.length p) by lia.
  apply substring_0_append.
Qed.

Lemma minus_last_slice (s p : string) :
  minus_last s p → JS.slice s 0 (-1) = p.
Proof. intros [a ->]. apply slice_drop_last. Qed.

Lemma ends_with_minus_last (s : string) :
  ends_with s ":*" → minus_last s (JS.slice s 0 (-1)).
Proof.
  intros [p ->]. exists "*"%char.
  change ":*" with (":" +:+ String "*" "") at 2.
  rewrite <- append_assoc. rewrite slice_drop_last.
  rewrite append_assoc. reflexivity.
Qed.

End StringFacts.

(** ** Numbers *)

Lemma Number_eqb_eq (x y : JS.Number) : JS.Number_eqb x y = true ↔ x = y.
Proof.
  destruct x as [a Ha|s Hs], y as [b Hb|t Ht]; simpl;
    try (split; discriminate).
  - rewrite Z.eqb_eq. split.
    + intros ->. f_equal. apply proof_irrel.
    + now intros [= ->].
  - rewrite String.eqb_eq. split.
    + intros ->. f_equal. apply proof_irrel.
    + now intros [= ->].
Qed.

Lemma Number_eqb_spec (x y : JS.Number) :
  reflect (x = y) (JS.Number_eqb x y).
Proof.
  destruct (JS.Number_eqb x y) eqn:E; constructor.
  - now apply Number_eqb_eq.
  - intros H. apply Number_eqb_eq in H. congruence.
Qed.

Lemma Number_eqb_refl (x : JS.Number) : JS.Number_eqb x x = true.
Proof. now apply Number_eqb_eq. Qed.

(** ** The matching helpers meet their description *)

Lemma matchesCommons_iff (grantRef targetRef : string) :
  matchesCommons grantRef targetRef = true
  ↔ CommonsMatches_spec grantRef targetRef.
Proof.
  unfold matchesCommons, CommonsMatches_spec.
  destruct (String.eqb_spec grantRef "*") as [->|Hstar]; [tauto|].
  destruct (String.eqb_spec grantRef targetRef) as [->|Hneq]; [tauto|].
  destruct (JS.endsWith grantRef ":*") eqn:Hend.
  - apply endsWith_iff in Hend. rewrite startsWith_iff. split.
    + intros Hs. right; right. split; [exact Hend|].
      exists (JS.slice grantRef 0 (-1)). split; [|exact Hs].
      now apply ends_with_minus_last.
    + intros [?|[?|[_ [p [Hm Hs]]]]]; [contradiction..|].
      now rewrite (minus_last_slice _ _ Hm).
  - split; [discriminate|].
    intros [?|[?|[He _]]]; [contradiction..|].
    apply endsWith_iff in He. congruence.
Qed.

Lemma matchesScope_iff (scope : string) (kind : JS.Number) :
  matchesScope scope kind = true ↔ ScopeMatches_spec scope kind.
Proof.
  unfold matchesScope, ScopeMatches_spec.
  destruct (String.eqb_spec scope "*") as [->|H1]; [tauto|].
  destruct (String.eqb_spec scope ("kind:" +:+ JS.Number_toString kind))
    as [->|H2]; [tauto|].
  destruct (String.eqb_spec scope (JS.Number_toString kind)) as [->|H3];
    [tauto|].
  split; [discriminate|]. intros [?|[?|?]]; contradiction.
Qed.

(** C4: matchesCommons(grantRef, targetRef) is true exactly when grantRef is
    "*", or grantRef equals targetRef, or grantRef ends with ":*" and
    targetRef starts with grantRef without its trailing "*"; the three
    examples of the design document evaluate as stated. *)
Theorem matchesCommons_spec :
  (∀ grantRef targetRef : string,
     matchesCommons grantRef targetRef = true
     ↔ CommonsMatches_spec grantRef targetRef)
  ∧ matchesCommons "39002:OWNER:*" "39002:OWNER:general" = true
  ∧ matchesCommons "39002:OWNER:general" "39002:OWNER:other" = false
  ∧ (∀ t : string, matchesCommons "*" t = true).
Proof.
  split; [exact matchesCommons_iff|].
  split; [reflexivity|]. split; [reflexivity|]. intros t. reflexivity.
Qed.

(** C5: matchesScope(scope, kind) is true exactly when scope is "*", or is
    the kind printed as a bare number, or is "kind:" followed by the kind,
    for every number a kind can be; the four examples of the design
    document evaluate as stated, and so do a kind that prints with an
    exponent and one with a fraction. *)
Theorem matchesScope_spec :
  (∀ (scope : string) (kind : JS.Number),
     matchesScope scope kind = true ↔ ScopeMatches_spec scope kind)
  ∧ matchesScope "kind:1" (num 1) = true
  ∧ matchesScope "1" (num 1) = true
  ∧ matchesScope "*" (num 1) = true
  ∧ matchesScope "kind:1" (num 2) = false
  ∧ matchesScope "kind:1e+21" (JS.Other "1e+21" eq_refl) = true
  ∧ matchesScope "1000000000000000000000" (JS.Other "1e+21" eq_refl) = false
  ∧ matchesScope "1.5" (JS.Other "1.5" eq_refl) = true
  ∧ matchesScope "kind:1" (JS.Other "1.5" eq_refl) = false.
Proof.
  split; [exact matchesScope_iff|]. repeat split; reflexivity.
Qed.

(** ** Write and read checks *)

Lemma opt_eqb_iff (o : option string) (s : string) :
  opt_eqb o s = true ↔ o = Some s.
Proof.
  destruct o as [x|]; simpl.
  - rewrite String.eqb_eq. split; congruence.
  - split; discriminate.
Qed.

Lemma truthy_iff (s : string) : JS.truthy s = true ↔ s ≠ "".
Proof.
  unfold JS.truthy. destruct (String.eqb_spec s ""); simpl; split;
    congruence.
Qed.

Lemma commons_of_inv (ev : Event) (c : string) :
  commons_of ev = Some c →
  ∃ t, find_commons_tag (tags ev) = Some t ∧ nth_error t 1 = Some c.
Proof.
  unfold commons_of. destruct (find_commons_tag (tags ev)) as [t|];
    [|discriminate].
  intros H. exists t. split; [reflexivity | exact H].
Qed.

(** The commons of an event does not depend on its kind, id or author. *)
Lemma commons_of_tags (ev ev' : Event) :
  tags ev = tags ev' → commons_of ev = commons_of ev'.
Proof. unfold commons_of. now intros ->. Qed.


Ltac enter_check H Hin :=
  let t := fresh "t" in
  let Hf := fresh "Hfind" in
  let Hn := fresh "Hnth" in
  apply commons_of_inv in H as (t & Hf & Hn);
  unfold canWrite, canRead;
  rewrite Hf, Hn, (bool_decide_eq_true_2 _ Hin);
  cbn [negb].

Lemma canWrite_owner (st : CapState) (sid : string) (ev : Event) (c : string) :
  commons_of ev = Some c → c ∈ enforcedCommons st →
  owner_field c = Some (pubkey ev) →
  canWrite st sid ev = WriteResult.mk true None.
Proof.
  intros H Hin Ho. enter_check H Hin.
  fold (owner_field c). apply opt_eqb_iff in Ho. now rewrite Ho.
Qed.

Lemma canWrite_unauthenticated (st : CapState) (sid : string) (ev : Event)
    (c : string) :
  commons_of ev = Some c → c ∈ enforcedCommons st →
  owner_field c ≠ Some (pubkey ev) →
  authenticated st sid = false →
  canWrite st sid ev
  = WriteResult.mk false (Some "auth-required: authentication required").
Proof.
  intros H Hin Ho Hauth. enter_check H Hin. fold (owner_field c).
  destruct (opt_eqb (owner_field c) (pubkey ev)) eqn:E.
  { apply opt_eqb_iff in E. contradiction. }
  unfold authenticated in Hauth.
  destruct (connections st !! sid) as [conn|]; [|reflexivity].
  destruct (Conn.pubkey conn) as [cpk|]; [|reflexivity].
  simpl in Hauth. now rewrite Hauth.
Qed.

Lemma canWrite_holder (st : CapState) (sid : string) (ev : Event)
    (c : string) (conn : Conn.t) :
  commons_of ev = Some c → c ∈ enforcedCommons st →
  owner_field c ≠ Some (pubkey ev) →
  connections st !! sid = Some conn →
  Conn.pubkey conn = Some (pubkey ev) → pubkey ev ≠ "" →
  canWrite st sid ev
  = if existsb (fun g => opt_eqb (Grant.action g) "publish"
                         && matchesScope (Grant.scope g) (kind ev)
                         && matchesCommons (Grant.commons g) c)
               (Conn.grants conn)
    then WriteResult.mk true None
    else WriteResult.mk false
           (Some ("blocked: no publish grant for kind:"
                  +:+ JS.Number_toString (kind ev) +:+ " in " +:+ c)).
Proof.
  intros H Hin Ho Hc Hp Hne. enter_check H Hin. fold (owner_field c).
  destruct (opt_eqb (owner_field c) (pubkey ev)) eqn:E.
  { apply opt_eqb_iff in E. contradiction. }
  rewrite Hc, Hp. apply truthy_iff in Hne. rewrite Hne.
  rewrite String.eqb_refl. cbn [negb].
  now destruct (existsb _ _).
Qed.

Lemma publish_grant_iff (k : JS.Number) (c : string) (g : Grant.t) :
  opt_eqb (Grant.action g) "publish" && matchesScope (Grant.scope g) k
  && matchesCommons (Grant.commons g) c = true
  ↔ publish_grant k c g.
Proof.
  unfold publish_grant.
  rewrite !andb_true_iff, opt_eqb_iff, matchesScope_iff, matchesCommons_iff.
  tauto.
Qed.

Lemma read_grant_iff (c : string) (g : Grant.t) :
  (opt_eqb (Grant.action g) "access" || opt_eqb (Grant.action g) "publish")
  && matchesCommons (Grant.commons g) c = true
  ↔ read_grant c g.
Proof.
  unfold read_grant.
  rewrite andb_true_iff, orb_true_iff, !opt_eqb_iff, matchesCommons_iff.
  tauto.
Qed.

Lemma canRead_enforced (st : CapState) (sid : string) (ev : Event)
    (c : string) :
  commons_of ev = Some c → c ∈ enforcedCommons st →
  canRead st sid ev
  = authenticated st sid
    && existsb (fun g => (opt_eqb (Grant.action g) "access"
                          || opt_eqb (Grant.action g) "publish")
                         && matchesCommons (Grant.commons g) c)
               (grants_of st sid).
Proof.
  intros H Hin. enter_check H Hin. unfold authenticated, grants_of.
  destruct (connections st !! sid) as [conn|]; [|reflexivity].
  destruct (JS.truthy_opt (Conn.pubkey conn)); [|reflexivity].
  cbn [negb andb]. now destruct (existsb _ _).
Qed.

(** Grants that differ only in scope pass the read test alike. *)
Lemma read_test_same_but_scope (c : string) (gs gs' : list Grant.t) :
  Forall2 same_but_scope gs gs' →
  existsb (fun g => (opt_eqb (Grant.action g) "access"
                     || opt_eqb (Grant.action g) "publish")
                    && matchesCommons (Grant.commons g) c) gs
  = existsb (fun g => (opt_eqb (Grant.action g) "access"
                       || opt_eqb (Grant.action g) "publish")
                      && matchesCommons (Grant.commons g) c) gs'.
Proof.
  induction 1 as [|g h gs gs' [Ha Hc] _ IH]; [reflexivity|].
  simpl. now rewrite Ha, Hc, IH.
Qed.

(** The reference located on an event is that of its first [a] tag whose
    value starts with "39002:"; later such tags do not enter the checks. *)
Lemma first_commons_tag_decides (eid author : string) (k : JS.Number)
    (c : string) (rest : list Tag) :
  JS.startsWith c "39002:" = true →
  commons_of (mkEvent eid author k (["a"; c] :: rest)) = Some c.
Proof.
  intros Hc. unfold commons_of, find_commons_tag. simpl. now rewrite Hc.
Qed.

Lemma split_colon_free (a rest : string) :
  colon_free a = true →
  JS.split ":" (a +:+ String ":" rest) = a :: JS.split ":" rest.
Proof.
  induction a as [|x a IH]; intros Hf; [reflexivity|].
  simpl in Hf. apply andb_true_iff in Hf as [Hx Ha].
  rewrite append_cons. simpl. apply negb_true_iff in Hx.
  rewrite Hx, (IH Ha). reflexivity.
Qed.

(** The author of a registration event is the owner field of the reference
    it registers. *)
Lemma registrant_owns_commons (author dTag : string) :
  colon_free author = true →
  owner_field ("39002:" +:+ author +:+ ":" +:+ dTag) = Some author.
Proof.
  intros Hf. unfold owner_field.
  change ("39002:" +:+ author +:+ ":" +:+ dTag)
    with ("39002" +:+ String ":" (author +:+ String ":" dTag)).
  rewrite (split_colon_free "39002" _ eq_refl).
  now rewrite (split_colon_free author dTag Hf).
Qed.

(** ** What a turn does to the enforced set *)

Section Enforcement.
Context `{X : Externals}.

Lemma handleAuth_enforced (st : CapState) (sid : string) (ev : Event)
    (now : Z) :
  enforcedCommons (fst (handleAuth st sid ev now)) = enforcedCommons st.
Proof.
  unfold handleAuth.
  repeat (match goal with
          | |- context [match ?d with _ => _ end] => destruct d
          end; try reflexivity).
Qed.

Lemma processEvent_connections (st : CapState) (ev : Event) :
  connections (processEvent st ev) = connections st.
Proof.
  unfold processEvent.
  repeat (match goal with
          | |- context [match ?d with _ => _ end] => destruct d
          end; try reflexivity).
Qed.

Lemma processEvent_enforced (st : CapState) (ev : Event) (c : string) :
  c ∈ enforcedCommons (processEvent st ev)
  ↔ c ∈ enforcedCommons st
    ∨ (kind ev = num 39002
       ∧ ∃ dTag, tag_value "d" (tags ev) = Some dTag ∧ dTag ≠ ""
                 ∧ c = "39002:" +:+ pubkey ev +:+ ":" +:+ dTag).
Proof.
  unfold processEvent.
  destruct (Number_eqb_spec (kind ev) (num 39002)) as [Hk|Hk].
  - destruct (tag_value "d" (tags ev)) as [d|] eqn:Hd.
    + destruct (JS.truthy d) eqn:Ht.
      * apply truthy_iff in Ht. simpl. rewrite elem_of_union,
          elem_of_singleton. split.
        -- intros [->|Hin]; [right|left; exact Hin].
           split; [exact Hk|]. exists d. auto.
        -- intros [Hin|[_ (d' & Hd' & _ & ->)]]; [right; exact Hin|].
           left. congruence.
      * split; [auto|]. intros [Hin|[_ (d' & Hd' & Hne & _)]]; [exact Hin|].
        exfalso. assert (d' = d) by congruence. subst d'.
        apply truthy_iff in Hne. congruence.
    + split; [auto|]. intros [Hin|[_ (d' & Hd' & _)]]; [exact Hin|].
      discriminate.
  - split; [auto|]. intros [Hin|[Hk' _]]; [exact Hin | contradiction].
Qed.

Lemma step_enforced (r : Relay) (i : Input) :
  enforcedCommons (cap (fst (step r i)))
  = match i with
    | Message sid (EVENT ev) _ =>
        if accepted r sid ev
        then enforcedCommons (processEvent (cap r) ev)
        else enforcedCommons (cap r)
    | _ => enforcedCommons (cap r)
    end.
Proof.
  destruct i as [sid ch|sid m now|sid|]; try reflexivity.
  destruct m as [a|ev|l f|l|]; try reflexivity.
  - simpl. pose proof (handleAuth_enforced (cap r) sid a now) as H.
    destruct (handleAuth (cap r) sid a now) as [st res]. exact H.
  - unfold accepted. simpl.
    destruct (verifyEvent ev); [|reflexivity]. cbn [negb andb].
    destruct (WriteResult.ok (canWrite (cap r) sid ev)); reflexivity.
Qed.

Lemma step_registers (r : Relay) (i : Input) (c : string) :
  c ∈ enforcedCommons (cap (fst (step r i)))
  ↔ c ∈ enforcedCommons (cap r) ∨ registers r i c.
Proof.
  rewrite step_enforced. unfold registers.
  destruct i as [sid ch|sid m now|sid|];
    try (split; [auto | intros [H|(?&?&?&?&?&_)]; [exact H|discriminate]]).
  destruct m as [a|ev|l f|l|];
    try (split; [auto | intros [H|(?&?&?&?&?&_)]; [exact H|discriminate]]).
  destruct (accepted r sid ev) eqn:Hacc.
  - rewrite processEvent_enforced. split.
    + intros [H|[Hk (d & Hd & Hne & ->)]]; [left; exact H|].
      right. exists sid, ev, now, d. repeat split; auto.
    + intros [H|(sid' & ev' & now' & d & Hi & _ & Hk & Hd & Hne & ->)];
        [left; exact H|].
      inversion Hi; subst. right. split; [exact Hk|]. exists d. auto.
  - split; [auto|].
    intros [H|(sid' & ev' & now' & d & Hi & Hacc' & _)]; [exact H|].
    inversion Hi; subst. congruence.
Qed.

Lemma step_monotone (r : Relay) (i : Input) (c : string) :
  c ∈ enforcedCommons (cap r) → c ∈ enforcedCommons (cap (fst (step r i))).
Proof. intros H. apply step_registers. now left. Qed.

Lemma run_snoc (r : Relay) (inputs : list Input) (i : Input) :
  run r (inputs ++ [i])%list = fst (step (run r inputs) i).
Proof. unfold run. now rewrite fold_left_app. Qed.

Lemma run_monotone (r : Relay) (inputs : list Input) (c : string) :
  c ∈ enforcedCommons (cap r) → c ∈ enforcedCommons (cap (run r inputs)).
Proof.
  revert r. induction inputs as [|i inputs IH]; intros r H; [exact H|].
  simpl. apply IH. now apply step_monotone.
Qed.

End Enforcement.

(** ** Claims about the write and read checks *)

(** C1, amended: the commons reference of an event is the value of its
    first a tag whose value starts with "39002:"; later a tags are not
    looked at.  For an event whose commons reference is enforced, canWrite
    allows the write when the author is the owner field of the reference,
    whatever the connection; when the author is not the owner and the
    connection is not authenticated it rejects with a reason that starts with
    "auth-required:".  A reference enters the enforced set exactly on the
    acceptance of a kind-39002 event whose (first) d tag has a non-empty
    value, as 39002:<author>:<dTagValue>. *)
Theorem owner_writes_and_registration `{X : Externals} :
  (∀ (st : CapState) (sid : string) (ev : Event) (c : string),
     commons_of ev = Some c → c ∈ enforcedCommons st →
     owner_field c = Some (pubkey ev) →
     canWrite st sid ev = WriteResult.mk true None)
  ∧ (∀ (st : CapState) (sid : string) (ev : Event) (c : string),
       commons_of ev = Some c → c ∈ enforcedCommons st →
       owner_field c ≠ Some (pubkey ev) →
       authenticated st sid = false →
       ∃ reason, canWrite st sid ev = WriteResult.mk false (Some reason)
                 ∧ starts_with reason "auth-required:")
  ∧ (∀ (r : Relay) (i : Input) (c : string),
       c ∈ enforcedCommons (cap (fst (step r i)))
       ↔ c ∈ enforcedCommons (cap r) ∨ registers r i c).
Proof.
  split; [|split].
  - intros st sid ev c. apply canWrite_owner.
  - intros st sid ev c H Hin Ho Ha.
    rewrite (canWrite_unauthenticated st sid ev c H Hin Ho Ha).
    eexists. split; [reflexivity|].
    exists " authentication required". reflexivity.
  - apply step_registers.
Qed.

(** C2, amended: on a connection authenticated as the event's author, for
    an event whose commons reference (the value of its first a tag whose
    value starts with "39002:") is enforced and owned by someone else,
    canWrite allows the write exactly when the connection holds a grant
    with action "publish" whose scope matches the kind and whose commons
    matches that reference, and otherwise rejects with a reason that starts
    with "blocked:".
    With the single grant publish / "kind:1" / "39002:A:*", B's kind-1 event
    to "39002:A:g" is allowed and B's kind-2 event is rejected. *)
Theorem publish_needs_matching_grant :
  (∀ (st : CapState) (sid : string) (ev : Event) (c : string),
     commons_of ev = Some c → c ∈ enforcedCommons st →
     authenticated_as st sid (pubkey ev) →
     owner_field c ≠ Some (pubkey ev) →
     (WriteResult.ok (canWrite st sid ev) = true
      ↔ ∃ g, In g (grants_of st sid) ∧ publish_grant (kind ev) c g)
     ∧ (WriteResult.ok (canWrite st sid ev) = false →
        ∃ reason, WriteResult.reason (canWrite st sid ev) = Some reason
                  ∧ starts_with reason "blocked:"))
  ∧ (∀ (st : CapState) (sid eid : string),
       "39002:A:g" ∈ enforcedCommons st →
       authenticated_as st sid "B" →
       grants_of st sid = [Grant.mk (Some "publish") "kind:1" "39002:A:*"] →
       WriteResult.ok
         (canWrite st sid (mkEvent eid "B" (num 1) [["a"; "39002:A:g"]]))
       = true
       ∧ WriteResult.ok
           (canWrite st sid (mkEvent eid "B" (num 2) [["a"; "39002:A:g"]]))
         = false).
Proof.
  split.
  - intros st sid ev c H Hin (conn & Hc & Hp & Hne) Ho.
    rewrite (canWrite_holder st sid ev c conn H Hin Ho Hc Hp Hne).
    unfold grants_of. rewrite Hc.
    destruct (existsb _ (Conn.grants conn)) eqn:E.
    + split; [|discriminate]. split; [|reflexivity]. intros _.
      apply existsb_exists in E as (g & Hg & Hm).
      exists g. split; [exact Hg|]. now apply publish_grant_iff.
    + split.
      * split; [discriminate|]. intros (g & Hg & Hm). exfalso.
        assert (existsb
                  (fun g => opt_eqb (Grant.action g) "publish"
                            && matchesScope (Grant.scope g) (kind ev)
                            && matchesCommons (Grant.commons g) c)
                  (Conn.grants conn) = true) as E'.
        { apply existsb_exists. exists g. split; [exact Hg|].
          now apply publish_grant_iff. }
        congruence.
      * intros _. eexists. split; [reflexivity|].
        exists (" no publish grant for kind:"
                +:+ JS.Number_toString (kind ev) +:+ " in " +:+ c).
        reflexivity.
  - intros st sid eid Hin (conn & Hc & Hp & Hne) Hg.
    unfold grants_of in Hg. rewrite Hc in Hg.
    assert (Ho : owner_field "39002:A:g" ≠ Some "B")
      by (vm_compute; congruence).
    split.
    + rewrite (canWrite_holder st sid
                 (mkEvent eid "B" (num 1) [["a"; "39002:A:g"]]) "39002:A:g" conn
                 eq_refl Hin Ho Hc Hp Hne).
      cbn [kind]. rewrite Hg. reflexivity.
    + rewrite (canWrite_holder st sid
                 (mkEvent eid "B" (num 2) [["a"; "39002:A:g"]]) "39002:A:g" conn
                 eq_refl Hin Ho Hc Hp Hne).
      cbn [kind]. rewrite Hg. reflexivity.
Qed.

(** C3, amended: for an event whose commons reference (the value of its
    first a tag whose value starts with "39002:") is enforced, canRead is
    true exactly when the connection is authenticated and holds a grant whose
    action is "access" or "publish" and whose commons matches that
    reference; the event's kind and the grants' scopes do not enter the
    decision; and when canRead is false the subscription callback and the
    stored-event scan send nothing for the event. *)
Theorem read_needs_commons_grant `{X : Externals}
    (st : CapState) (sid : string) (ev : Event) (c : string) :
  commons_of ev = Some c → c ∈ enforcedCommons st →
  (canRead st sid ev = true
   ↔ authenticated st sid = true
     ∧ ∃ g, In g (grants_of st sid) ∧ read_grant c g)
  ∧ (∀ k : JS.Number,
       canRead st sid (mkEvent (id ev) (pubkey ev) k (tags ev))
       = canRead st sid ev)
  ∧ (∀ (conn : Conn.t) (gs' : list Grant.t),
       connections st !! sid = Some conn →
       Forall2 same_but_scope (Conn.grants conn) gs' →
       canRead
         (mkCapState
            (<[sid := Conn.mk (Conn.pubkey conn) gs' (Conn.challenge conn)]>
               (connections st))
            (enforcedCommons st)) sid ev
       = canRead st sid ev)
  ∧ (canRead st sid ev = false →
     ∀ (lsubid : string) (filters : Filters),
       makecb st (mkCallback sid lsubid filters) ev = []
       ∧ sendStored st sid lsubid filters [ev] = []).
Proof.
  intros H Hin. split; [|split; [|split]].
  - rewrite (canRead_enforced st sid ev c H Hin), andb_true_iff,
      existsb_exists.
    split.
    + intros [Ha (g & Hg & Hm)]. split; [exact Ha|].
      exists g. split; [exact Hg|]. now apply read_grant_iff.
    + intros [Ha (g & Hg & Hm)]. split; [exact Ha|].
      exists g. split; [exact Hg|]. now apply read_grant_iff.
  - intros k. reflexivity.
  - intros conn gs' Hc HF.
    rewrite (canRead_enforced st sid ev c H Hin).
    rewrite (canRead_enforced _ sid ev c H); [|exact Hin].
    unfold authenticated, grants_of. cbn [connections].
    rewrite lookup_insert_eq, Hc. cbn [Conn.pubkey Conn.grants].
    f_equal. symmetry. now apply read_test_same_but_scope.
  - intros Hr lsubid filters. unfold makecb, sendStored. simpl.
    rewrite Hr. cbn [negb]. now destruct (matchFilters filters ev).
Qed.

(** C6: a commons reference in the enforced set stays there through every
    turn of the process (a connect, an AUTH, EVENT, REQ or CLOSE message or
    any other message, a disconnect, the timer that clears the event store)
    and so through every sequence of turns. *)
Theorem enforcement_is_monotonic `{X : Externals} (r : Relay) (c : string) :
  c ∈ enforcedCommons (cap r) →
  (∀ i : Input, c ∈ enforcedCommons (cap (fst (step r i))))
  ∧ (∀ inputs : list Input, c ∈ enforcedCommons (cap (run r inputs)))
  ∧ c ∈ enforcedCommons (cap (fst (step r Tick)))
  ∧ events (fst (step r Tick)) = [].
Proof.
  intros H. split; [|split; [|split]].
  - intros i. now apply step_monotone.
  - intros inputs. now apply run_monotone.
  - exact H.
  - reflexivity.
Qed.

(** ** AUTH handling *)

Section AuthFacts.
Context `{X : Externals}.

Ltac break_auth :=
  repeat (match goal with
          | |- context [match ?d with _ => _ end] => destruct d eqn:?
          end; cbn [fst snd AuthResult.ok]; try reflexivity;
          try discriminate).

Lemma handleAuth_fail_unchanged (st : CapState) (sid : string) (ev : Event)
    (now : Z) :
  AuthResult.ok (snd (handleAuth st sid ev now)) = false →
  fst (handleAuth st sid ev now) = st.
Proof. unfold handleAuth. break_auth. Qed.

Lemma presented_cap_inline (ev : Event) :
  presented_cap ev
  = match find_tag "cap" (tags ev) with
    | None => None
    | Some t => match nth_error t 1 with
                | Some s => if JS.truthy s then Some s else None
                | None => None
                end
    end.
Proof.
  unfold presented_cap, tag_value.
  now destruct (find_tag "cap" (tags ev)).
Qed.

Lemma handleAuth_success (st : CapState) (sid : string) (ev : Event)
    (now : Z) :
  AuthResult.ok (snd (handleAuth st sid ev now)) = true →
  ∃ conn,
    connections st !! sid = Some conn
    ∧ fst (handleAuth st sid ev now)
      = mkCapState
          (<[sid := Conn.mk (Some (pubkey ev)) (auth_grants ev)
                            (Conn.challenge conn)]> (connections st))
          (enforcedCommons st).
Proof.
  unfold handleAuth, auth_grants. rewrite presented_cap_inline.
  destruct (connections st !! sid) as [conn|]; [|discriminate].
  intros H. exists conn. split; [reflexivity|]. revert H.
  break_auth.
Qed.

Lemma handleAuth_challenge (st : CapState) (sid : string) (ev : Event)
    (now : Z) :
  challenge_of (fst (handleAuth st sid ev now)) sid = challenge_of st sid.
Proof.
  destruct (AuthResult.ok (snd (handleAuth st sid ev now))) eqn:E.
  - apply handleAuth_success in E as (conn & Hc & ->).
    unfold challenge_of. cbn [connections].
    now rewrite lookup_insert_eq, Hc.
  - now rewrite (handleAuth_fail_unchanged _ _ _ _ E).
Qed.

(** The verdict on an AUTH event depends on the state only through the
    connection's challenge. *)
Lemma handleAuth_verdict (st st' : CapState) (sid : string) (ev : Event)
    (now : Z) :
  challenge_of st sid = challenge_of st' sid →
  snd (handleAuth st sid ev now) = snd (handleAuth st' sid ev now).
Proof.
  unfold challenge_of, handleAuth.
  destruct (connections st !! sid) as [c|],
           (connections st' !! sid) as [c'|]; simpl; try discriminate;
    [|reflexivity].
  intros [= ->]. break_auth.
Qed.

Lemma handleAuth_at_expiry (st : CapState) (sid : string) (ev cap : Event)
    (now : Z) :
  reaches_expiry_check st sid ev cap →
  snd (handleAuth st sid ev now)
  = if JS.truthy_opt (tag_value "expiry" (tags cap))
       && Num.lt (match tag_value "expiry" (tags cap) with
                  | Some e => Num.parseInt e
                  | None => None
                  end) (Num.seconds now)
    then AuthResult.mk false "cap expired"
    else AuthResult.mk true "authenticated".
Proof.
  intros (conn & capJson & Hc & Hk & Hv & Hch & Hcap & Hj & Hvc & Hp).
  unfold handleAuth. rewrite Hc, Hk, Number_eqb_refl, Hv. cbn [negb].
  unfold tag_value in Hch.
  destruct (find_tag "challenge" (tags ev)) as [t|]; [|discriminate].
  rewrite Hch. cbn [opt_eqb]. rewrite String.eqb_refl. cbn [negb].
  unfold presented_cap, tag_value in Hcap.
  destruct (find_tag "cap" (tags ev)) as [t'|]; [|discriminate].
  destruct (nth_error t' 1) as [s|]; [|discriminate].
  destruct (JS.truthy s); [|discriminate].
  injection Hcap as ->. rewrite Hj, Hvc, Hp. cbn [negb opt_eqb].
  rewrite String.eqb_refl. cbn [negb].
  now destruct (_ && _).
Qed.

Lemma parseInt_nonempty (x : string) (v : Z) :
  Num.parseInt x = Some v → JS.truthy x = true.
Proof. destruct x; [discriminate | reflexivity]. Qed.

Lemma Num_lt_iff (v : Z) (y : Q) :
  Num.lt (Some v) y = true ↔ (inject_Z v < y)%Q.
Proof.
  unfold Num.lt. rewrite negb_true_iff. split.
  - intros H. apply Qnot_le_lt. intros Hle.
    apply Qle_bool_iff in Hle. congruence.
  - intros H. destruct (Qle_bool y (inject_Z v)) eqn:E; [|reflexivity].
    apply Qle_bool_iff in E. exfalso. exact (Qlt_not_le _ _ H E).
Qed.

End AuthFacts.

(** C7: after a successful AUTH the connection's grants are exactly those
    parsed from the capability of that AUTH message, none when it presents
    no capability; they are the same whatever the connection held before,
    so nothing of an earlier AUTH is kept or merged. *)
Theorem auth_replaces_grants `{X : Externals}
    (st : CapState) (sid : string) (ev : Event) (now : Z) :
  AuthResult.ok (snd (handleAuth st sid ev now)) = true →
  grants_of (fst (handleAuth st sid ev now)) sid = auth_grants ev
  ∧ (presented_cap ev = None →
     grants_of (fst (handleAuth st sid ev now)) sid = [])
  ∧ (∀ (st0 : CapState) (ev0 : Event) (now0 : Z),
       st = fst (handleAuth st0 sid ev0 now0) →
       ∀ g, In g (grants_of (fst (handleAuth st sid ev now)) sid) →
            In g (auth_grants ev))
  ∧ (∀ (st' : CapState) (now' : Z),
       AuthResult.ok (snd (handleAuth st' sid ev now')) = true →
       grants_of (fst (handleAuth st' sid ev now')) sid
       = grants_of (fst (handleAuth st sid ev now)) sid).
Proof.
  intros Hok.
  assert (Hg : ∀ st1 now1,
             AuthResult.ok (snd (handleAuth st1 sid ev now1)) = true →
             grants_of (fst (handleAuth st1 sid ev now1)) sid
             = auth_grants ev).
  { intros st1 now1 H1. apply handleAuth_success in H1 as (conn & _ & ->).
    unfold grants_of. cbn [connections]. now rewrite lookup_insert_eq. }
  split; [|split; [|split]].
  - now apply Hg.
  - intros Hnone. rewrite (Hg st now Hok). unfold auth_grants.
    now rewrite Hnone.
  - intros st0 ev0 now0 _ g. now rewrite (Hg st now Hok).
  - intros st' now' H'. now rewrite (Hg st' now' H'), (Hg st now Hok).
Qed.

(** C8, amended: for an AUTH that presents a capability and passes the
    earlier checks, the expiry tag's value is read as parseInt reads it:
    leading white space, a sign, then the longest run of digits (of
    hexadecimal digits after 0x), a fraction or an exponent after them not
    being read.  When that number is strictly
    below the current time in seconds, handleAuth fails with "cap expired";
    when there is no expiry tag, or the value does not start with a number,
    or the number is at or above the current time, this check does not fail
    (and the AUTH succeeds, it being the last check). *)
Theorem cap_expiry_check `{X : Externals}
    (st : CapState) (sid : string) (ev cap : Event) (now : Z) :
  reaches_expiry_check st sid ev cap →
  (∀ (x : string) (v : Z),
     tag_value "expiry" (tags cap) = Some x → Num.parseInt x = Some v →
     (inject_Z v < Num.seconds now)%Q →
     snd (handleAuth st sid ev now) = AuthResult.mk false "cap expired")
  ∧ (find_tag "expiry" (tags cap) = None →
     snd (handleAuth st sid ev now) = AuthResult.mk true "authenticated")
  ∧ (∀ (x : string) (v : Z),
       tag_value "expiry" (tags cap) = Some x → Num.parseInt x = Some v →
       (Num.seconds now <= inject_Z v)%Q →
       snd (handleAuth st sid ev now) = AuthResult.mk true "authenticated")
  ∧ (∀ x : string,
       tag_value "expiry" (tags cap) = Some x → Num.parseInt x = None →
       snd (handleAuth st sid ev now) = AuthResult.mk true "authenticated").
Proof.
  intros Hr. rewrite (handleAuth_at_expiry st sid ev cap now Hr).
  split; [|split; [|split]]; cycle 3.
  { intros x Hx Hv. rewrite Hx, Hv. cbn [Num.lt]. now rewrite andb_false_r. }
  - intros x v Hx Hv Hlt. rewrite Hx, Hv. cbn [JS.truthy_opt].
    rewrite (parseInt_nonempty x v Hv). apply Num_lt_iff in Hlt.
    now rewrite Hlt.
  - intros Hnone. unfold tag_value. now rewrite Hnone.
  - intros x v Hx Hv Hle. rewrite Hx, Hv.
    destruct (Num.lt (Some v) (Num.seconds now)) eqn:E.
    + apply Num_lt_iff in E. exfalso. exact (Qlt_not_le _ _ E Hle).
    + now rewrite andb_false_r.
Qed.

(** C9: a successful AUTH leaves the connection's challenge as it was, so
    the verdict on any later AUTH event is the one it would have had before:
    an event carrying the same challenge and otherwise valid succeeds again,
    in particular the same event replayed, and the challenge is still
    unchanged after the second authentication. *)
Theorem challenge_survives_auth `{X : Externals}
    (st : CapState) (sid : string) (ev1 : Event) (now1 : Z) :
  AuthResult.ok (snd (handleAuth st sid ev1 now1)) = true →
  challenge_of (fst (handleAuth st sid ev1 now1)) sid = challenge_of st sid
  ∧ (∀ (ev2 : Event) (now2 : Z),
       snd (handleAuth (fst (handleAuth st sid ev1 now1)) sid ev2 now2)
       = snd (handleAuth st sid ev2 now2))
  ∧ AuthResult.ok
      (snd (handleAuth (fst (handleAuth st sid ev1 now1)) sid ev1 now1))
    = true
  ∧ (∀ (ev2 : Event) (now2 : Z),
       challenge_of
         (fst (handleAuth (fst (handleAuth st sid ev1 now1)) sid ev2 now2))
         sid
       = challenge_of st sid).
Proof.
  intros Hok.
  pose proof (handleAuth_challenge st sid ev1 now1) as Hch.
  split; [exact Hch|]. split; [|split].
  - intros ev2 now2. now apply handleAuth_verdict.
  - now rewrite (handleAuth_verdict _ st sid ev1 now1 Hch).
  - intros ev2 now2. now rewrite handleAuth_challenge.
Qed.

(** C10: when handleAuth returns a failure, whatever the reason, the state
    it returns is the state it was given: the connection's identity, grants
    and challenge, every other connection and the enforced set are as
    before, and the relay as a whole is unchanged by the AUTH message. *)
Theorem failed_auth_changes_nothing `{X : Externals}
    (st : CapState) (sid : string) (ev : Event) (now : Z) :
  AuthResult.ok (snd (handleAuth st sid ev now)) = false →
  fst (handleAuth st sid ev now) = st
  ∧ connections (fst (handleAuth st sid ev now)) !! sid
    = connections st !! sid
  ∧ (∀ r : Relay, cap r = st →
       fst (step r (Message sid (AUTH ev) now)) = r).
Proof.
  intros Hf. pose proof (handleAuth_fail_unchanged st sid ev now Hf) as Hst.
  split; [exact Hst|]. split; [now rewrite Hst|].
  intros r <-. simpl.
  destruct (handleAuth (cap r) sid ev now) as [st' res]. simpl in Hst.
  subst st'. now destruct r.
Qed.

(** ** The claims on the sample relay *)

Lemma in_enforced_sample :
  "39002:A:g" ∈ enforcedCommons (cap Sample.enforced).
Proof. apply (bool_decide_unpack _). vm_compute. exact I. Defined.

Lemma in_granted_sample :
  "39002:A:g" ∈ enforcedCommons (cap Sample.granted).
Proof. apply (bool_decide_unpack _). vm_compute. exact I. Defined.

Lemma granted_conn_sample :
  connections (cap Sample.granted) !! "sock-b"
  = Some (Conn.mk (Some "B")
                  [Grant.mk (Some "publish") "kind:1" "39002:A:*"] "ch-b").
Proof. vm_compute. reflexivity. Defined.

Lemma enforced_conn_sample :
  connections (cap Sample.enforced) !! "sock-b"
  = Some (Conn.mk None [] "ch-b").
Proof. vm_compute. reflexivity. Defined.

Lemma authenticated_as_sample :
  authenticated_as (cap Sample.granted) "sock-b" "B".
Proof.
  eexists. split; [exact granted_conn_sample|].
  split; [reflexivity | discriminate].
Defined.

(** The owner A writes to the enforced commons from B's unauthenticated
    socket, B does not, and A's registration event registers "39002:A:g". *)
Lemma owner_writes_and_registration_witness :
  canWrite (cap Sample.enforced) "sock-b" (Sample.note "A" (num 1))
  = WriteResult.mk true None
  ∧ (∃ reason,
       canWrite (cap Sample.enforced) "sock-b" (Sample.note "B" (num 1))
       = WriteResult.mk false (Some reason)
       ∧ starts_with reason "auth-required:")
  ∧ "39002:A:g"
    ∈ enforcedCommons
        (cap (fst (step Sample.connected
                        (Message "sock-a" (EVENT Sample.register_g) 0)))).
Proof.
  destruct (owner_writes_and_registration (X := Sample.X)) as (Ha & Hb & Hc).
  split; [|split].
  - apply (Ha _ "sock-b" (Sample.note "A" (num 1)) "39002:A:g");
      [reflexivity | exact in_enforced_sample | reflexivity].
  - apply (Hb _ "sock-b" (Sample.note "B" (num 1)) "39002:A:g");
      [reflexivity | exact in_enforced_sample | | reflexivity].
    vm_compute. discriminate.
  - apply Hc. right. exists "sock-a", Sample.register_g, 0%Z, "g".
    repeat split; try reflexivity. discriminate.
Defined.

Lemma decoy_tagged (author : string) :
  tagged_with (Sample.decoy author) "39002:A:g".
Proof.
  exists ["a"; "39002:A:g"]. split; [right; left; reflexivity|].
  split; reflexivity.
Qed.

Lemma owner_is_not_B : owner_field "39002:A:g" ≠ Some "B".
Proof. vm_compute. discriminate. Qed.

(** C1 as the design document words it fails on two inputs.  On A's open
    socket the kind-39002 event whose d tag is [["d"; ""]] is accepted with
    OK=true, and "39002:A:" is not enforced afterwards.  And with
    "39002:A:g" enforced, B's event tagged with "39002:X:free" and then
    with "39002:A:g" is written from B's unauthenticated socket. *)
Lemma empty_d_tag_and_second_reference :
  snd (step Sample.connected (Message "sock-a" (EVENT Sample.register_empty) 0))
  = [("sock-a", OutOK "e-reg0" true "")]
  ∧ ¬ registers_every_d_tag (X := Sample.X)
  ∧ canWrite (cap Sample.enforced) "sock-b" (Sample.decoy "B")
    = WriteResult.mk true None
  ∧ ¬ tagged_write_needs_auth.
Proof.
  split; [vm_compute; reflexivity|]. split; [|split; [reflexivity|]].
  - intros H.
    specialize (H Sample.connected "sock-a" Sample.register_empty 0%Z ""
                  eq_refl eq_refl eq_refl).
    revert H. apply (bool_decide_eq_false_1 _). vm_compute. reflexivity.
  - intros H.
    destruct (H (cap Sample.enforced) "sock-b" (Sample.decoy "B") "39002:A:g"
                (decoy_tagged "B") in_enforced_sample owner_is_not_B eq_refl)
      as (reason & E & _).
    discriminate E.
Qed.

(** B, holding the publish grant for kind 1, publishes kind 1 and not
    kind 2. *)
Lemma publish_needs_matching_grant_witness :
  (WriteResult.ok
     (canWrite (cap Sample.granted) "sock-b" (Sample.note "B" (num 1))) = true
   ↔ ∃ g, In g (grants_of (cap Sample.granted) "sock-b")
          ∧ publish_grant (num 1) "39002:A:g" g)
  ∧ WriteResult.ok
      (canWrite (cap Sample.granted) "sock-b" (Sample.note "B" (num 1))) = true
  ∧ WriteResult.ok
      (canWrite (cap Sample.granted) "sock-b" (Sample.note "B" (num 2))) = false.
Proof.
  destruct publish_needs_matching_grant as [H1 H2].
  split.
  - apply (H1 (cap Sample.granted) "sock-b" (Sample.note "B" (num 1))
             "39002:A:g");
      [reflexivity | exact in_granted_sample | exact authenticated_as_sample|].
    vm_compute. discriminate.
  - apply (H2 (cap Sample.granted) "sock-b" "e-note");
      [exact in_granted_sample | exact authenticated_as_sample|].
    unfold grants_of. rewrite granted_conn_sample. reflexivity.
Defined.

Lemma in_plain_sample :
  "39002:A:g" ∈ enforcedCommons (cap Sample.plain).
Proof. apply (bool_decide_unpack _). vm_compute. exact I. Qed.

Lemma plain_conn_sample :
  connections (cap Sample.plain) !! "sock-b"
  = Some (Conn.mk (Some "B") [] "ch-b").
Proof. vm_compute. reflexivity. Qed.

(** C2 as the design document words it fails: B, authenticated and holding
    no grant at all, writes the event tagged with "39002:X:free" and then
    with the enforced "39002:A:g", whose owner is A. *)
Lemma second_reference_written_without_grant :
  grants_of (cap Sample.plain) "sock-b" = []
  ∧ canWrite (cap Sample.plain) "sock-b" (Sample.decoy "B")
    = WriteResult.mk true None
  ∧ ¬ tagged_write_needs_grant.
Proof.
  split; [unfold grants_of; now rewrite plain_conn_sample|].
  split; [reflexivity|]. intros H.
  assert (Ha : authenticated_as (cap Sample.plain) "sock-b"
                 (pubkey (Sample.decoy "B"))).
  { eexists. split; [exact plain_conn_sample|].
    split; [reflexivity | discriminate]. }
  destruct (H (cap Sample.plain) "sock-b" (Sample.decoy "B") "39002:A:g"
              (decoy_tagged "B") in_plain_sample Ha owner_is_not_B)
    as [Hg _].
  destruct (Hg eq_refl) as (g & Hin & _).
  unfold grants_of in Hin. rewrite plain_conn_sample in Hin. exact Hin.
Qed.

(** C3 as the design document words it fails: the same event by A is read
    on B's unauthenticated socket, and a subscription of that socket is
    sent it. *)
Lemma second_reference_read_without_grant :
  authenticated (cap Sample.enforced) "sock-b" = false
  ∧ canRead (cap Sample.enforced) "sock-b" (Sample.decoy "A") = true
  ∧ makecb (X := Sample.X) (cap Sample.enforced)
           (mkCallback (X := Sample.X) "sock-b" "sub" [num 1])
           (Sample.decoy "A")
    = [("sock-b", OutEVENT "sub" (Sample.decoy "A"))]
  ∧ ¬ tagged_read_needs_grant.
Proof.
  split; [reflexivity|]. split; [reflexivity|].
  split; [vm_compute; reflexivity|]. intros H.
  destruct (H (cap Sample.enforced) "sock-b" (Sample.decoy "A") "39002:A:g"
              (decoy_tagged "A") in_enforced_sample) as [Hr _].
  destruct (Hr eq_refl) as [Ha _]. discriminate Ha.
Qed.

(** B reads A's kind-7 note once it holds the grant, and not before; the
    callback then sends nothing. *)
Lemma read_needs_commons_grant_witness :
  canRead (cap Sample.granted) "sock-b" (Sample.note "A" (num 7)) = true
  ∧ makecb (X := Sample.X) (cap Sample.enforced)
           (mkCallback (X := Sample.X) "sock-b" "sub" [num 7])
           (Sample.note "A" (num 7)) = [].
Proof.
  split.
  - destruct (read_needs_commons_grant (X := Sample.X) (cap Sample.granted)
                "sock-b" (Sample.note "A" (num 7)) "39002:A:g" eq_refl
                in_granted_sample) as (Hiff & _).
    apply Hiff. split; [vm_compute; reflexivity|].
    exists (Grant.mk (Some "publish") "kind:1" "39002:A:*"). split.
    + unfold grants_of. rewrite granted_conn_sample. left. reflexivity.
    + split; [right; reflexivity|].
      apply matchesCommons_iff. reflexivity.
  - destruct (read_needs_commons_grant (X := Sample.X) (cap Sample.enforced)
                "sock-b" (Sample.note "A" (num 7)) "39002:A:g" eq_refl
                in_enforced_sample) as (_ & _ & _ & Hsilent).
    apply (Hsilent ltac:(vm_compute; reflexivity) "sub" [num 7]).
Defined.

(** "39002:A:g" survives the timer, a disconnect, a failed AUTH and a
    CLOSE. *)
Lemma enforcement_is_monotonic_witness :
  "39002:A:g"
  ∈ enforcedCommons
      (cap (run Sample.enforced
              [Tick; Disconnect "sock-a";
               Message "sock-b" (AUTH Sample.authB_stale) 0;
               Message "sock-b" (CLOSE "sub") 0; Tick])).
Proof.
  apply (enforcement_is_monotonic (X := Sample.X) Sample.enforced
           "39002:A:g" in_enforced_sample).
Defined.

Lemma authB_read_ok_sample :
  AuthResult.ok
    (snd (handleAuth (X := Sample.X) (cap Sample.granted) "sock-b"
            Sample.authB_read 50000)) = true.
Proof. vm_compute. reflexivity. Defined.

(** B, holding a publish grant, authenticates again with the read
    capability: the access grant is all it holds afterwards. *)
Lemma auth_replaces_grants_witness :
  grants_of (cap Sample.granted) "sock-b"
  = [Grant.mk (Some "publish") "kind:1" "39002:A:*"]
  ∧ grants_of
      (fst (handleAuth (X := Sample.X) (cap Sample.granted) "sock-b"
              Sample.authB_read 50000)) "sock-b"
    = [Grant.mk (Some "access") "*" "39002:A:g"].
Proof.
  split.
  - unfold grants_of. rewrite granted_conn_sample. reflexivity.
  - destruct (auth_replaces_grants (X := Sample.X) (cap Sample.granted)
                "sock-b" Sample.authB_read 50000 authB_read_ok_sample)
      as (H & _).
    rewrite H. reflexivity.
Defined.

Lemma reaches_expiry_sample :
  reaches_expiry_check (X := Sample.X) (cap Sample.granted) "sock-b"
    Sample.authB_read Sample.capB_read.
Proof.
  exists (Conn.mk (Some "B")
                  [Grant.mk (Some "publish") "kind:1" "39002:A:*"] "ch-b"),
         "cap-b-read-json".
  split; [exact granted_conn_sample|]. repeat split; reflexivity.
Defined.

(** The capability expiring at second 100 is refused at 100.001 s and
    taken at 100 s sharp. *)
Lemma cap_expiry_check_witness :
  snd (handleAuth (X := Sample.X) (cap Sample.granted) "sock-b"
         Sample.authB_read 100001)
  = AuthResult.mk false "cap expired"
  ∧ snd (handleAuth (X := Sample.X) (cap Sample.granted) "sock-b"
           Sample.authB_read 100000)
    = AuthResult.mk true "authenticated".
Proof.
  split.
  - destruct (cap_expiry_check (X := Sample.X) (cap Sample.granted) "sock-b"
                Sample.authB_read Sample.capB_read 100001
                reaches_expiry_sample) as (H & _).
    apply (H "100" 100%Z); [reflexivity | reflexivity|].
    vm_compute. reflexivity.
  - destruct (cap_expiry_check (X := Sample.X) (cap Sample.granted) "sock-b"
                Sample.authB_read Sample.capB_read 100000
                reaches_expiry_sample) as (_ & _ & H & _).
    apply (H "100" 100%Z); [reflexivity | reflexivity|].
    vm_compute. discriminate.
Defined.

Lemma reaches_expiry_frac :
  reaches_expiry_check (X := Sample.X) (cap Sample.enforced) "sock-b"
    Sample.authB_frac Sample.capB_frac.
Proof.
  exists (Conn.mk None [] "ch-b"), "cap-b-frac-json".
  split; [exact enforced_conn_sample|]. repeat split; reflexivity.
Qed.

(** C8 as the design document words it fails: the capability whose expiry
    is "100.9" is refused as expired at 100.5 s, parseInt reading 100. *)
Lemma fractional_expiry_cut_short :
  numeric_value "100.9" = Some (1009 # 10)
  ∧ (Num.seconds 100500 <= 1009 # 10)%Q
  ∧ Num.parseInt "100.9" = Some 100%Z
  ∧ snd (handleAuth (X := Sample.X) (cap Sample.enforced) "sock-b"
           Sample.authB_frac 100500)
    = AuthResult.mk false "cap expired"
  ∧ ¬ expiry_by_numeric_value (X := Sample.X).
Proof.
  assert (Hle : (Num.seconds 100500 <= 1009 # 10)%Q)
    by (vm_compute; discriminate).
  split; [reflexivity|]. split; [exact Hle|]. split; [reflexivity|].
  split; [vm_compute; reflexivity|]. intros H.
  apply (H (cap Sample.enforced) "sock-b" Sample.authB_frac Sample.capB_frac
           100500%Z "100.9" (1009 # 10) reaches_expiry_frac eq_refl eq_refl
           Hle).
  vm_compute. reflexivity.
Qed.

Lemma authB_ok_sample :
  AuthResult.ok
    (snd (handleAuth (X := Sample.X) (cap Sample.enforced) "sock-b"
            Sample.authB 50000)) = true.
Proof. vm_compute. reflexivity. Defined.

(** B authenticates, then replays the same AUTH event: it succeeds again
    and the challenge is still "ch-b". *)
Lemma challenge_survives_auth_witness :
  AuthResult.ok
    (snd (handleAuth (X := Sample.X) (cap Sample.granted) "sock-b"
            Sample.authB 50000)) = true
  ∧ challenge_of (cap Sample.granted) "sock-b"
    = challenge_of (cap Sample.enforced) "sock-b".
Proof.
  destruct (challenge_survives_auth (X := Sample.X) (cap Sample.enforced)
              "sock-b" Sample.authB 50000 authB_ok_sample)
    as (Hc & _ & Hr & _).
  split; [exact Hr | exact Hc].
Defined.

Lemma authB_stale_fails_sample :
  AuthResult.ok
    (snd (handleAuth (X := Sample.X) (cap Sample.granted) "sock-b"
            Sample.authB_stale 50000)) = false.
Proof. vm_compute. reflexivity. Defined.

(** An AUTH answering the wrong challenge leaves B's record, publish grant
    included, as it was. *)
Lemma failed_auth_changes_nothing_witness :
  fst (handleAuth (X := Sample.X) (cap Sample.granted) "sock-b"
         Sample.authB_stale 50000)
  = cap Sample.granted.
Proof.
  apply (failed_auth_changes_nothing (X := Sample.X) (cap Sample.granted)
           "sock-b" Sample.authB_stale 50000 authB_stale_fails_sample).
Defined.

(** * Further properties of the code *)

(** ** Connection records *)


(** X2: cleanupConnection removes the socket's record and nothing else;
    an AUTH that follows on that socket fails with "connection not
    initialized" and changes nothing; and closing a connection that was
    opened on an unused id gives back the state before it was opened. *)
Theorem cleanup_connection_forgets `{X : Externals}
    (st : CapState) (sid : string) :
  connections (cleanupConnection st sid) !! sid = None
  ∧ (∀ sid', sid' ≠ sid →
       connections (cleanupConnection st sid) !! sid'
       = connections st !! sid')
  ∧ enforcedCommons (cleanupConnection st sid) = enforcedCommons st
  ∧ (∀ (ev : Event) (now : Z),
       handleAuth (cleanupConnection st sid) sid ev now
       = (cleanupConnection st sid,
          AuthResult.mk false "connection not initialized"))
  ∧ (∀ ch : string,
       connections st !! sid = None →
       cleanupConnection (fst (initConnection st sid ch)) sid = st).
Proof.
  unfold cleanupConnection. cbn [connections enforcedCommons].
  split; [apply lookup_delete_eq|].
  split; [intros sid' Hne; now apply lookup_delete_ne|].
  split; [reflexivity|]. split.
  - intros ev now. unfold handleAuth. cbn [connections].
    now rewrite lookup_delete_eq.
  - intros ch Hnone. unfold initConnection. cbn [fst connections
      enforcedCommons].
    rewrite delete_insert_id by exact Hnone. now destruct st.
Qed.

(** ** AUTH *)

Section AuthMore.
Context `{X : Externals}.

Lemma handleAuth_ok_inv (st : CapState) (sid : string) (ev : Event)
    (now : Z) :
  AuthResult.ok (snd (handleAuth st sid ev now)) = true →
  auth_passes st sid ev now.
Proof.
  unfold handleAuth, auth_passes.
  destruct (connections st !! sid) as [conn|] eqn:Hc; [|discriminate].
  destruct (Number_eqb_spec (kind ev) AUTH_KIND) as [Hk|]; [|discriminate].
  cbn [negb].
  destruct (verifyEvent ev) eqn:Hv; [|discriminate]. cbn [negb].
  destruct (find_tag "challenge" (tags ev)) as [t|] eqn:Hct; [|discriminate].
  destruct (opt_eqb (nth_error t 1) (Conn.challenge conn)) eqn:Hch;
    [|discriminate].
  cbn [negb]. rewrite <- presented_cap_inline.
  assert (Hchal : tag_value "challenge" (tags ev)
                  = Some (Conn.challenge conn)).
  { unfold tag_value. rewrite Hct. now apply opt_eqb_iff. }
  destruct (presented_cap ev) as [capJson|] eqn:Hp.
  - destruct (JSON_parse capJson) as [[cap|raises]|] eqn:Hj;
      [|destruct raises; discriminate|discriminate].
    destruct (verifyEvent cap) eqn:Hvc; [|discriminate]. cbn [negb].
    destruct (opt_eqb (tag_value "p" (tags cap)) (pubkey ev)) eqn:Hg;
      [|discriminate].
    cbn [negb]. apply opt_eqb_iff in Hg.
    destruct (JS.truthy_opt (tag_value "expiry" (tags cap)) && _) eqn:He;
      [discriminate|].
    intros _. exists conn. repeat (split; [assumption || reflexivity|]).
    right. exists cap. split.
    + exists conn, capJson. repeat split; assumption.
    + intros (x & v & Hx & Hpi & Hlt). rewrite Hx, Hpi in He.
      cbn [JS.truthy_opt] in He.
      rewrite (parseInt_nonempty x v Hpi) in He.
      apply Num_lt_iff in Hlt. rewrite Hlt in He. discriminate.
  - intros _. exists conn. repeat (split; [assumption || reflexivity|]).
    now left.
Qed.

Lemma handleAuth_plain (st : CapState) (sid : string) (ev : Event)
    (now : Z) (conn : Conn.t) :
  connections st !! sid = Some conn →
  kind ev = AUTH_KIND → verifyEvent ev = true →
  tag_value "challenge" (tags ev) = Some (Conn.challenge conn) →
  presented_cap ev = None →
  snd (handleAuth st sid ev now) = AuthResult.mk true "authenticated".
Proof.
  intros Hc Hk Hv Hch Hp. unfold handleAuth.
  rewrite Hc, Hk, Number_eqb_refl, Hv. cbn [negb].
  unfold tag_value in Hch.
  destruct (find_tag "challenge" (tags ev)) as [t|]; [|discriminate].
  rewrite Hch. cbn [opt_eqb]. rewrite String.eqb_refl. cbn [negb].
  rewrite <- presented_cap_inline, Hp. reflexivity.
Qed.

Lemma expiry_test_false (cap : Event) (now : Z) :
  ¬ cap_expired cap now →
  JS.truthy_opt (tag_value "expiry" (tags cap))
  && Num.lt (match tag_value "expiry" (tags cap) with
             | Some e => Num.parseInt e
             | None => None
             end) (Num.seconds now) = false.
Proof.
  intros Hne.
  destruct (tag_value "expiry" (tags cap)) as [x|] eqn:Hx; [|reflexivity].
  destruct (Num.parseInt x) as [v|] eqn:Hv.
  - destruct (Num.lt (Some v) (Num.seconds now)) eqn:E.
    + exfalso. apply Hne. exists x, v. repeat split; try assumption.
      now apply Num_lt_iff.
    + apply andb_false_r.
  - apply andb_false_r.
Qed.

Lemma handleAuth_ok_iff (st : CapState) (sid : string) (ev : Event)
    (now : Z) :
  AuthResult.ok (snd (handleAuth st sid ev now)) = true
  ↔ auth_passes st sid ev now.
Proof.
  split; [apply handleAuth_ok_inv|].
  intros (conn & Hc & Hk & Hv & Hch & [Hp|(cap & Hr & Hne)]).
  - now rewrite (handleAuth_plain st sid ev now conn).
  - rewrite (handleAuth_at_expiry st sid ev cap now Hr).
    now rewrite (expiry_test_false cap now Hne).
Qed.

Lemma handleAuth_other_sockets (st : CapState) (sid sid' : string)
    (ev : Event) (now : Z) :
  sid' ≠ sid →
  connections (fst (handleAuth st sid ev now)) !! sid'
  = connections st !! sid'.
Proof.
  intros Hne.
  destruct (AuthResult.ok (snd (handleAuth st sid ev now))) eqn:E.
  - apply handleAuth_success in E as (conn & _ & ->). cbn [connections].
    now apply lookup_insert_ne.
  - now rewrite (handleAuth_fail_unchanged _ _ _ _ E).
Qed.

Lemma handleAuth_records (st : CapState) (sid sid' : string) (ev : Event)
    (now : Z) :
  is_Some (connections (fst (handleAuth st sid ev now)) !! sid')
  ↔ is_Some (connections st !! sid').
Proof.
  destruct (AuthResult.ok (snd (handleAuth st sid ev now))) eqn:E.
  - apply handleAuth_success in E as (conn & Hc & ->). cbn [connections].
    rewrite lookup_insert_is_Some. split.
    + intros [<-|[_ H]]; [now rewrite Hc | exact H].
    + intros H. destruct (decide (sid = sid')); [now left | now right].
  - now rewrite (handleAuth_fail_unchanged _ _ _ _ E).
Qed.

End AuthMore.

(** X3: handleAuth succeeds exactly when the socket has a record, the event
    has kind 22242, its signature verifies, its challenge tag carries the
    record's challenge, and it either presents no capability or presents one
    that parses, verifies, names the event's author in its p tag and has no
    expiry below the clock. *)
Theorem auth_succeeds_iff `{X : Externals}
    (st : CapState) (sid : string) (ev : Event) (now : Z) :
  AuthResult.ok (snd (handleAuth st sid ev now)) = true
  ↔ auth_passes st sid ev now.
Proof. apply handleAuth_ok_iff. Qed.

(** X4: handleAuth touches no record but the acting socket's: every other
    connection keeps its identity, grants and challenge, no record is
    created or removed, and the enforced set is unchanged. *)
Theorem auth_touches_one_record `{X : Externals}
    (st : CapState) (sid : string) (ev : Event) (now : Z) :
  (∀ sid', sid' ≠ sid →
     connections (fst (handleAuth st sid ev now)) !! sid'
     = connections st !! sid')
  ∧ (∀ sid', is_Some (connections (fst (handleAuth st sid ev now)) !! sid')
             ↔ is_Some (connections st !! sid'))
  ∧ enforcedCommons (fst (handleAuth st sid ev now)) = enforcedCommons st.
Proof.
  split; [|split].
  - intros sid'. apply handleAuth_other_sockets.
  - intros sid'. apply handleAuth_records.
  - apply handleAuth_enforced.
Qed.

(** X5: the first check that fails decides how handleAuth ends: no
    record, then the kind (whatever the signature), then the signature, then
    the challenge (whatever the capability), then the capability's text, its
    signature and its grantee.  A capability text that parses to something
    verifyEvent throws on (null, say) makes handleAuth throw: the state is
    unchanged and the relay sends no OK. *)
Theorem auth_first_failure `{X : Externals}
    (st : CapState) (sid : string) (ev : Event) (now : Z) :
  (connections st !! sid = None →
   snd (handleAuth st sid ev now)
   = AuthResult.mk false "connection not initialized")
  ∧ (∀ conn : Conn.t,
       connections st !! sid = Some conn →
       (kind ev ≠ AUTH_KIND →
        snd (handleAuth st sid ev now)
        = AuthResult.mk false
            ("invalid auth kind: expected 22242, got "
             +:+ JS.Number_toString (kind ev)))
       ∧ (kind ev = AUTH_KIND → verifyEvent ev = false →
          snd (handleAuth st sid ev now)
          = AuthResult.mk false "invalid auth signature")
       ∧ (kind ev = AUTH_KIND → verifyEvent ev = true →
          tag_value "challenge" (tags ev) ≠ Some (Conn.challenge conn) →
          snd (handleAuth st sid ev now)
          = AuthResult.mk false "invalid or missing challenge")
       ∧ (kind ev = AUTH_KIND → verifyEvent ev = true →
          tag_value "challenge" (tags ev) = Some (Conn.challenge conn) →
          ∀ capJson : string,
            presented_cap ev = Some capJson →
            (JSON_parse capJson = None →
             snd (handleAuth st sid ev now)
             = AuthResult.mk false "invalid cap JSON")
            ∧ (JSON_parse capJson = Some (JsonOther true) →
               handleAuth st sid ev now = (st, AuthResult.thrown))
            ∧ (JSON_parse capJson = Some (JsonOther false) →
               snd (handleAuth st sid ev now)
               = AuthResult.mk false "invalid cap signature")
            ∧ (∀ cap : Event,
                 JSON_parse capJson = Some (JsonEvent cap) →
                 (verifyEvent cap = false →
                  snd (handleAuth st sid ev now)
                  = AuthResult.mk false "invalid cap signature")
                 ∧ (verifyEvent cap = true →
                    tag_value "p" (tags cap) ≠ Some (pubkey ev) →
                    ∃ m, snd (handleAuth st sid ev now)
                         = AuthResult.mk false m
                         ∧ starts_with m "grantee mismatch:"))))
  ∧ (snd (handleAuth st sid ev now) = AuthResult.thrown →
     ∀ r : Relay, cap r = st →
                  step r (Message sid (AUTH ev) now) = (r, [])).
Proof.
  split; [|split].
  { unfold handleAuth. intros ->. reflexivity. }
  { unfold handleAuth. intros conn ->. split; [|split; [|split; [|]]].
    - intros Hk.
      destruct (Number_eqb_spec (kind ev) AUTH_KIND); [contradiction|].
      reflexivity.
    - intros -> ->. reflexivity.
    - intros -> -> Hch. rewrite Number_eqb_refl. cbn [negb].
      unfold tag_value in Hch.
      destruct (find_tag "challenge" (tags ev)) as [t|]; [|reflexivity].
      destruct (opt_eqb (nth_error t 1) (Conn.challenge conn)) eqn:E;
        [|reflexivity].
      apply opt_eqb_iff in E. contradiction.
    - intros -> -> Hch capJson Hp. rewrite Number_eqb_refl. cbn [negb].
      unfold tag_value in Hch.
      destruct (find_tag "challenge" (tags ev)) as [t|]; [|discriminate].
      rewrite Hch. cbn [opt_eqb]. rewrite String.eqb_refl. cbn [negb].
      rewrite <- presented_cap_inline, Hp.
      split; [intros ->; reflexivity|].
      split; [intros ->; reflexivity|].
      split; [intros ->; reflexivity|].
      intros cap ->. split.
      + intros ->. reflexivity.
      + intros -> Hg. cbn [negb].
        destruct (opt_eqb (tag_value "p" (tags cap)) (pubkey ev)) eqn:E.
        { apply opt_eqb_iff in E. contradiction. }
        cbn [negb snd]. eexists. split; [reflexivity|].
        eexists. reflexivity. }
  intros Hthrown r <-.
  pose proof (handleAuth_fail_unchanged (cap r) sid ev now) as Hst.
  rewrite Hthrown in Hst. specialize (Hst eq_refl).
  cbn [step onMessage].
  destruct (handleAuth (cap r) sid ev now) as [st' res].
  cbn [fst snd] in *. subst st' res. now destruct r.
Qed.



(** ** Capabilities *)

Lemma or_star_nonempty (o : option string) : or_star o ≠ "".
Proof.
  destruct o as [s|]; simpl; [|discriminate].
  destruct (JS.truthy s) eqn:E; [|discriminate]. now apply truthy_iff.
Qed.

Lemma parseGrants_In (cap : Event) (g : Grant.t) :
  In g (parseGrants cap)
  ↔ ∃ tag, In tag (tags cap) ∧ nth_error tag 0 = Some "cap"
           ∧ g = Grant.mk (nth_error tag 1) (or_star (nth_error tag 2))
                          (or_star (tag_value "a" (tags cap))).
Proof.
  unfold parseGrants. rewrite in_flat_map. split.
  - intros (tag & Hin & Hg). exists tag. split; [exact Hin|].
    destruct (nth_error tag 0) as [h|] eqn:H0; [|contradiction].
    destruct (String.eqb_spec h "cap") as [Hh|]; [|contradiction].
    destruct Hg as [<-|[]]. subst h. split; reflexivity.
  - intros (tag & Hin & H0 & ->). exists tag. split; [exact Hin|].
    rewrite H0. cbn. now left.
Qed.

Lemma parseGrants_length (cap : Event) :
  List.length (parseGrants cap) = cap_tag_count cap.
Proof.
  unfold parseGrants, cap_tag_count.
  generalize (or_star (tag_value "a" (tags cap))). intros c.
  induction (tags cap) as [|tag ts IH]; [reflexivity|].
  cbn [flat_map List.filter]. rewrite length_app, IH.
  destruct (nth_error tag 0) as [h|]; cbn [opt_eqb]; [|reflexivity].
  destruct (String.eqb h "cap"); reflexivity.
Qed.

(** X7: parseGrants yields one grant per cap tag of the capability, in
    order of appearance and none for other tags; all carry the value of the
    first a tag as commons, or "*" when it is missing or empty, so a
    capability without an a tag matches every commons; and a cap tag without
    a scope grants its action for every kind. *)
Theorem parse_grants_shape (cap : Event) :
  List.length (parseGrants cap) = cap_tag_count cap
  ∧ (∀ g, In g (parseGrants cap) →
          Grant.commons g = or_star (tag_value "a" (tags cap))
          ∧ Grant.commons g ≠ "" ∧ Grant.scope g ≠ "")
  ∧ (tag_value "a" (tags cap) = None →
     ∀ g c, In g (parseGrants cap) →
            matchesCommons (Grant.commons g) c = true)
  ∧ (∀ act : string,
       In ["cap"; act] (tags cap) →
       ∃ g, In g (parseGrants cap) ∧ Grant.action g = Some act
            ∧ ∀ k, matchesScope (Grant.scope g) k = true).
Proof.
  split; [apply parseGrants_length|]. split; [|split].
  - intros g Hg. apply parseGrants_In in Hg as (tag & _ & _ & ->).
    cbn [Grant.commons Grant.scope].
    split; [reflexivity|]. split; apply or_star_nonempty.
  - intros Hnone g c Hg. apply parseGrants_In in Hg as (tag & _ & _ & ->).
    cbn [Grant.commons]. rewrite Hnone. reflexivity.
  - intros act Hin. eexists. split.
    + apply parseGrants_In. exists ["cap"; act].
      split; [exact Hin|]. split; reflexivity.
    + split; [reflexivity|]. intros k. reflexivity.
Qed.

(** X8: handleAuth takes a capability whoever signed it: the capability's
    own author is never compared with the owner of the commons it names.
    Once an AUTH presenting a verified, unexpired capability with tags
    p = the AUTH author, a = an enforced commons reference, cap = publish
    has been handled, the socket publishes events of any kind to that
    commons and reads from it. *)
Theorem capability_issuer_is_not_checked `{X : Externals}
    (st : CapState) (sid : string) (ev cap : Event) (now : Z) (c : string) :
  reaches_expiry_check st sid ev cap →
  tags cap = [["p"; pubkey ev]; ["a"; c]; ["cap"; "publish"]] →
  pubkey ev ≠ "" →
  JS.startsWith c "39002:" = true →
  c ∈ enforcedCommons st →
  AuthResult.ok (snd (handleAuth st sid ev now)) = true
  ∧ ∀ (eid : string) (k : JS.Number),
      canWrite (fst (handleAuth st sid ev now)) sid
        (mkEvent eid (pubkey ev) k [["a"; c]])
      = WriteResult.mk true None
      ∧ canRead (fst (handleAuth st sid ev now)) sid
          (mkEvent eid (pubkey ev) k [["a"; c]]) = true.
Proof.
  intros Hr Ht Hne Hc Hin.
  assert (Hnonempty : c ≠ "") by (intros ->; discriminate).
  assert (Hok : AuthResult.ok (snd (handleAuth st sid ev now)) = true).
  { rewrite (handleAuth_at_expiry st sid ev cap now Hr).
    unfold tag_value. rewrite Ht. reflexivity. }
  split; [exact Hok|]. intros eid k.
  destruct (handleAuth_success st sid ev now Hok) as (conn & Hconn & Hst).
  destruct Hr as (conn' & capJson & Hconn' & _ & _ & _ & Hp & Hj & _ & _).
  assert (Hg : auth_grants ev = [Grant.mk (Some "publish") "*" c]).
  { unfold auth_grants. rewrite Hp, Hj. unfold parseGrants. rewrite Ht.
    unfold tag_value. cbn. apply truthy_iff in Hnonempty.
    now rewrite Hnonempty. }
  set (e := mkEvent eid (pubkey ev) k [["a"; c]]).
  assert (He : commons_of e = Some c)
    by (apply first_commons_tag_decides; exact Hc).
  assert (Hin' : c ∈ enforcedCommons (fst (handleAuth st sid ev now)))
    by now rewrite handleAuth_enforced.
  assert (Hmc : matchesCommons c c = true).
  { apply matchesCommons_iff. right. now left. }
  split.
  - destruct (opt_eqb (owner_field c) (pubkey e)) eqn:Ho.
    + apply opt_eqb_iff in Ho. now apply (canWrite_owner _ sid e c).
    + assert (Ho' : owner_field c ≠ Some (pubkey e)).
      { intros E. apply opt_eqb_iff in E. congruence. }
      rewrite (canWrite_holder _ sid e c
                 (Conn.mk (Some (pubkey ev)) (auth_grants ev)
                          (Conn.challenge conn)) He Hin' Ho').
      * cbn [Conn.grants]. rewrite Hg. cbn. now rewrite Hmc.
      * rewrite Hst. cbn [connections]. apply lookup_insert_eq.
      * reflexivity.
      * exact Hne.
  - rewrite (canRead_enforced _ sid e c He Hin').
    unfold authenticated, grants_of. rewrite Hst. cbn [connections].
    rewrite lookup_insert_eq. cbn [Conn.pubkey Conn.grants JS.truthy_opt].
    apply truthy_iff in Hne. rewrite Hne, Hg. cbn. now rewrite Hmc.
Qed.

(** ** Registration *)

Ltac union_tauto :=
  apply set_eq; intros ?; rewrite ?elem_of_union, ?elem_of_empty; tauto.

Lemma processEvent_union (st : CapState) (ev : Event) :
  processEvent st ev
  = mkCapState (connections st) (registered_by ev ∪ enforcedCommons st).
Proof.
  unfold processEvent, registered_by.
  destruct (JS.Number_eqb (kind ev) (num 39002));
    [|destruct st; cbn [connections enforcedCommons]; f_equal; union_tauto].
  destruct (tag_value "d" (tags ev)) as [d|];
    [|destruct st; cbn [connections enforcedCommons]; f_equal; union_tauto].
  destruct (JS.truthy d); [reflexivity|].
  destruct st; cbn [connections enforcedCommons]; f_equal; union_tauto.
Qed.

(** X9: processEvent ignores every kind but 39002 and every kind-39002 event
    whose d tag is missing or empty; it never touches a connection record;
    processing an event twice is processing it once; and the order in which
    two events are processed does not matter. *)
Theorem process_event_is_idempotent (st : CapState) (ev : Event) :
  (kind ev ≠ num 39002 → processEvent st ev = st)
  ∧ (JS.truthy_opt (tag_value "d" (tags ev)) = false →
     processEvent st ev = st)
  ∧ connections (processEvent st ev) = connections st
  ∧ processEvent (processEvent st ev) ev = processEvent st ev
  ∧ (∀ ev', processEvent (processEvent st ev) ev'
            = processEvent (processEvent st ev') ev).
Proof.
  split; [|split; [|split; [|split]]].
  - intros Hk. unfold processEvent.
    destruct (Number_eqb_spec (kind ev) (num 39002));
      [contradiction | reflexivity].
  - intros Hd. unfold processEvent.
    destruct (JS.Number_eqb (kind ev) (num 39002)); [|reflexivity].
    destruct (tag_value "d" (tags ev)) as [d|]; [|reflexivity].
    simpl in Hd. now rewrite Hd.
  - apply processEvent_connections.
  - rewrite !processEvent_union. cbn [connections enforcedCommons].
    f_equal. union_tauto.
  - intros ev'. rewrite !processEvent_union.
    cbn [connections enforcedCommons]. f_equal. union_tauto.
Qed.

(** ** More on the write and read checks *)

Lemma find_commons_tag_value (ts : list Tag) (t : Tag) :
  find_commons_tag ts = Some t →
  ∃ r, nth_error t 0 = Some "a" ∧ nth_error t 1 = Some r
       ∧ JS.startsWith r "39002:" = true.
Proof.
  unfold find_commons_tag. intros H. apply find_some in H as [_ H].
  destruct (nth_error t 0) as [h|]; [|discriminate].
  destruct (nth_error t 1) as [r|]; [|discriminate].
  apply andb_true_iff in H as [Hh Hr]. apply String.eqb_eq in Hh.
  subst h. exists r. auto.
Qed.

Lemma commons_of_None (ev : Event) :
  commons_of ev = None ↔ find_commons_tag (tags ev) = None.
Proof.
  unfold commons_of.
  destruct (find_commons_tag (tags ev)) as [t|] eqn:E; [|tauto].
  destruct (find_commons_tag_value _ _ E) as (r & _ & Hr & _).
  rewrite Hr. split; discriminate.
Qed.

Lemma checks_unrestricted (st : CapState) (sid : string) (ev : Event) :
  (∀ c, commons_of ev = Some c → c ∉ enforcedCommons st) →
  canWrite st sid ev = WriteResult.mk true None ∧ canRead st sid ev = true.
Proof.
  intros H. unfold canWrite, canRead.
  destruct (find_commons_tag (tags ev)) as [t|] eqn:E; [|auto].
  destruct (find_commons_tag_value _ _ E) as (r & _ & Hr & _).
  rewrite Hr.
  assert (Hc : commons_of ev = Some r) by (unfold commons_of; now rewrite E).
  rewrite (bool_decide_eq_false_2 _ (H r Hc)). auto.
Qed.

(** X10: an event without an a tag whose value starts with "39002:", or
    whose commons reference is not in the enforced set, passes both checks
    on any socket, connected or not, authenticated or not. *)
Theorem unrestricted_outside_enforced_commons
    (st : CapState) (sid : string) (ev : Event) :
  (commons_of ev = None
   ↔ ∀ t r, In t (tags ev) → nth_error t 0 = Some "a" →
            nth_error t 1 = Some r → JS.startsWith r "39002:" = false)
  ∧ ((∀ c, commons_of ev = Some c → c ∉ enforcedCommons st) →
     canWrite st sid ev = WriteResult.mk true None
     ∧ canRead st sid ev = true).
Proof.
  split; [|apply checks_unrestricted].
  rewrite commons_of_None. unfold find_commons_tag. split.
  - intros H t r Hin H0 H1.
    pose proof (find_none _ _ H t Hin) as Hf. cbn beta in Hf.
    rewrite H0, H1, String.eqb_refl in Hf. exact Hf.
  - intros H.
    fold (find_commons_tag (tags ev)).
    destruct (find_commons_tag (tags ev)) as [t|] eqn:E; [|reflexivity].
    exfalso. pose proof (find_some _ _ E) as [Hin _].
    destruct (find_commons_tag_value _ _ E) as (r & H0 & H1 & Hs).
    rewrite (H t r Hin H0 H1) in Hs. discriminate.
Qed.




Lemma checks_depend_on (st st' : CapState) (sid : string) (ev : Event) :
  connections st' !! sid = connections st !! sid →
  (∀ c, commons_of ev = Some c →
        (c ∈ enforcedCommons st' ↔ c ∈ enforcedCommons st)) →
  canWrite st' sid ev = canWrite st sid ev
  ∧ canRead st' sid ev = canRead st sid ev.
Proof.
  intros Hc He. unfold canWrite, canRead. rewrite Hc.
  destruct (find_commons_tag (tags ev)) as [t|] eqn:E; [|auto].
  destruct (find_commons_tag_value _ _ E) as (r & _ & Hr & _).
  rewrite Hr.
  assert (Hco : commons_of ev = Some r) by (unfold commons_of; now rewrite E).
  rewrite (bool_decide_ext _ _ (He r Hco)). auto.
Qed.

(** X13: enforcing more commons never opens anything: with the connection
    records unchanged and a larger enforced set, whatever canWrite still
    allows was allowed before and whatever canRead still lets through was
    readable before. *)
Theorem more_enforcement_never_widens
    (st st' : CapState) (sid : string) (ev : Event) :
  connections st' = connections st →
  enforcedCommons st ⊆ enforcedCommons st' →
  (WriteResult.ok (canWrite st' sid ev) = true →
   WriteResult.ok (canWrite st sid ev) = true)
  ∧ (canRead st' sid ev = true → canRead st sid ev = true).
Proof.
  intros Hc Hsub.
  destruct (commons_of ev) as [c|] eqn:Hco.
  - destruct (decide (c ∈ enforcedCommons st)) as [Hin|Hout].
    + destruct (checks_depend_on st st' sid ev) as [-> ->]; [|..|auto].
      * now rewrite Hc.
      * intros c' Hc'. assert (c' = c) by congruence. subst c'.
        split; [auto|]. intros _. now apply Hsub.
    + destruct (checks_unrestricted st sid ev) as [-> ->]; [|auto].
      intros c' Hc'. congruence.
  - destruct (checks_unrestricted st sid ev) as [-> ->]; [|auto].
    intros c' Hc'. congruence.
Qed.

(** ** More on the matching helpers and on numbers *)

Lemma Z_to_int_proper (z : Z) :
  Z.to_int z ≠ Decimal.Pos Decimal.Nil ∧ Z.to_int z ≠ Decimal.Neg Decimal.Nil.
Proof.
  destruct z as [|p|p]; simpl; split; try discriminate;
    intros [= E]; exact (DecimalPos.Unsigned.to_uint_nonnil p E).
Qed.

Lemma decimal_inj (k k' : Z) : JS.decimal k = JS.decimal k' → k = k'.
Proof.
  unfold JS.decimal. intros H. apply DecimalZ.to_int_inj.
  apply (f_equal NilZero.int_of_string) in H.
  destruct (Z_to_int_proper k) as [H1 H2].
  destruct (Z_to_int_proper k') as [H1' H2'].
  rewrite !NilZero.isi in H by assumption. congruence.
Qed.

Lemma decimal_head (k : Z) (s : string) :
  JS.decimal k ≠ String "k" s ∧ JS.decimal k ≠ String "*" s.
Proof.
  unfold JS.decimal.
  destruct (Z.to_int k) as [d|d]; simpl; [|split; discriminate].
  destruct d; simpl; split; discriminate.
Qed.

Lemma safe_print_decimal (z : Z) :
  JS.safe z = true → JS.safe_print (JS.decimal z) = true.
Proof.
  intros Hz. unfold JS.safe_print, JS.decimal.
  destruct (Z_to_int_proper z) as [H1 H2].
  rewrite NilZero.isi by assumption. rewrite DecimalZ.of_to, Hz.
  apply String.eqb_refl.
Qed.

Lemma Number_toString_inj (x y : JS.Number) :
  JS.Number_toString x = JS.Number_toString y → x = y.
Proof.
  destruct x as [a Ha|s Hs], y as [b Hb|t Ht]; cbn [JS.Number_toString].
  - intros H. apply decimal_inj in H. subst b. f_equal. apply proof_irrel.
  - intros <-. exfalso. rewrite (safe_print_decimal a Ha) in Ht.
    now rewrite andb_false_r in Ht.
  - intros ->. exfalso. rewrite (safe_print_decimal b Hb) in Hs.
    now rewrite andb_false_r in Hs.
  - intros ->. f_equal. apply proof_irrel.
Qed.

Lemma Number_toString_head (x : JS.Number) (s : string) :
  JS.Number_toString x ≠ String "k" s ∧ JS.Number_toString x ≠ String "*" s.
Proof.
  destruct x as [a Ha|p Hp]; cbn [JS.Number_toString];
    [apply decimal_head|].
  split; intros ->; simpl in Hp; discriminate.
Qed.

(** X15: a scope written kind:N, or N alone, for N the print of a number,
    matches events of that kind and of no other kind (kind:1 does not match
    kind 10, 11 or 1.5; kind:1e+21 matches the kind that prints so), while
    "*" matches every kind. *)
Theorem scope_names_one_kind (k k' : JS.Number) :
  (matchesScope ("kind:" +:+ JS.Number_toString k) k' = true ↔ k = k')
  ∧ (matchesScope (JS.Number_toString k) k' = true ↔ k = k')
  ∧ matchesScope "*" k' = true.
Proof.
  split; [|split; [|reflexivity]].
  - rewrite matchesScope_iff. unfold ScopeMatches_spec. split.
    + intros [H|[H|H]].
      * discriminate H.
      * symmetry in H. now apply Number_toString_head in H.
      * apply Number_toString_inj. now injection H.
    + intros ->. right. now right.
  - rewrite matchesScope_iff. unfold ScopeMatches_spec. split.
    + intros [H|[H|H]].
      * now apply Number_toString_head in H.
      * now apply Number_toString_inj.
      * now apply Number_toString_head in H.
    + intros ->. right. now left.
Qed.

Lemma colon_free_field (a b x y : string) :
  colon_free a = true → colon_free b = true →
  a +:+ String ":" x = b +:+ String ":" y → a = b.
Proof.
  intros Ha Hb H. apply (f_equal (JS.split ":")) in H.
  rewrite (split_colon_free a x Ha), (split_colon_free b y Hb) in H.
  now injection H.
Qed.

Lemma append_inj_l (p x y : string) : p +:+ x = p +:+ y → x = y.
Proof.
  induction p as [|c p IH]; [auto|]. rewrite !append_cons.
  intros [= H]. auto.
Qed.

(** X16: for owner identities without a colon, the wildcard grant
    39002:<a>:* matches the commons 39002:<a'>:<d> exactly when a' is a:
    it covers every commons of that owner and none of another owner, even
    one whose identity starts with a. *)
Theorem wildcard_grant_covers_one_owner (a a' d : string) :
  colon_free a = true → colon_free a' = true →
  (matchesCommons ("39002:" +:+ a +:+ ":*") ("39002:" +:+ a' +:+ ":" +:+ d)
   = true
   ↔ a = a').
Proof.
  intros Ha Ha'. rewrite matchesCommons_iff. unfold CommonsMatches_spec.
  assert (Hg : "39002:" +:+ a +:+ ":*"
               = ("39002:" +:+ a +:+ ":") +:+ String "*" "").
  { now rewrite !append_assoc. }
  split.
  - intros [H|[H|[_ (p & Hm & r & Hs)]]].
    + discriminate H.
    + apply append_inj_l in H.
      exact (colon_free_field a a' "*" d Ha Ha' H).
    + apply minus_last_slice in Hm. rewrite Hg, slice_drop_last in Hm.
      subst p. rewrite !append_assoc in Hs. apply append_inj_l in Hs.
      symmetry. exact (colon_free_field a' a d r Ha' Ha Hs).
  - intros <-. right. right. split.
    + exists ("39002:" +:+ a). now rewrite !append_assoc.
    + exists ("39002:" +:+ a +:+ ":"). split.
      * exists "*"%char. exact Hg.
      * exists d. now rewrite !append_assoc.
Qed.

Lemma digits_step (a n : Z) (c : ascii) (r : string) :
  Num.digit_val c = Some n → (n <? 10)%Z = true →
  Num.digits 10 (Some a) (String c r) = Num.digits 10 (Some (a * 10 + n)%Z) r.
Proof. intros Hc Hn. cbn [Num.digits]. now rewrite Hc, Hn. Qed.

Lemma digits_uint (d : Decimal.uint) (a : Z) :
  Num.digits 10 (Some a) (NilEmpty.string_of_uint d)
  = Some (uint_value d a).
Proof.
  revert a. induction d; intros a; cbn [NilEmpty.string_of_uint uint_value];
    [reflexivity|..];
    (erewrite digits_step; [apply IHd | reflexivity | reflexivity]).
Qed.

Lemma uint_value_acc (d : Decimal.uint) (acc : positive) :
  uint_value d (Z.pos acc) = Z.pos (Pos.of_uint_acc d acc).
Proof.
  revert acc. induction d; intros acc; simpl; try reflexivity;
    rewrite <- IHd; f_equal; lia.
Qed.

Lemma uint_value_of_uint (d : Decimal.uint) :
  uint_value d 0 = Z.of_uint d.
Proof.
  unfold Z.of_uint.
  induction d; simpl; try reflexivity; try exact IHd;
    apply uint_value_acc.
Qed.

Ltac parse_digits :=
  unfold Num.parseInt; simpl; rewrite ?digits_uint; simpl option_map;
  f_equal;
  match goal with
  | |- (1 * ?x)%Z = _ => transitivity x; [lia | reflexivity]
  | |- (-1 * ?x)%Z = _ => transitivity (- x)%Z; [lia | reflexivity]
  | |- _ => reflexivity
  end.

Lemma parseInt_uint (d : Decimal.uint) :
  d ≠ Decimal.Nil →
  Num.parseInt (NilEmpty.string_of_uint d) = Some (Z.of_uint d)
  ∧ Num.parseInt (String "-" (NilEmpty.string_of_uint d))
    = Some (- Z.of_uint d)%Z.
Proof.
  intros Hd. rewrite <- uint_value_of_uint.
  destruct d as [|d|d|d|d|d|d|d|d|d|d]; [contradiction|..];
    try (split; parse_digits).
  destruct d; split; parse_digits.
Qed.

Lemma parseInt_decimal (k : Z) : Num.parseInt (JS.decimal k) = Some k.
Proof.
  unfold JS.decimal.
  rewrite <- (DecimalZ.of_to k) at 2.
  destruct k as [|p|p]; [reflexivity|..]; simpl Z.to_int;
    pose proof (DecimalPos.Unsigned.to_uint_nonnil p) as Hn;
    destruct (parseInt_uint (Pos.to_uint p) Hn) as [Hpos Hneg];
    simpl NilZero.string_of_int; unfold NilZero.string_of_uint;
    destruct (Pos.to_uint p) eqn:E; try contradiction;
    first [exact Hpos | exact Hneg].
Qed.

Lemma decimal_nonempty (k : Z) : JS.truthy (JS.decimal k) = true.
Proof. apply (parseInt_nonempty _ k). apply parseInt_decimal. Qed.

Lemma Num_lt_milliseconds (e now : Z) :
  Num.lt (Some e) (Num.seconds now) = (e * 1000 <? now)%Z.
Proof.
  destruct (Z.ltb_spec (e * 1000) now) as [Hlt|Hge].
  - apply Num_lt_iff. unfold Qlt, Num.seconds. simpl. lia.
  - destruct (Num.lt (Some e) (Num.seconds now)) eqn:E; [|reflexivity].
    apply Num_lt_iff in E. unfold Qlt, Num.seconds in E. simpl in E. lia.
Qed.

(** X18: with the expiry tag holding the decimal print of an integer e,
    an AUTH that passes the earlier checks fails with "cap expired" exactly
    when e * 1000 is below the clock in milliseconds, and succeeds
    otherwise: the capability is good up to and including the instant
    e * 1000 ms and refused from the next millisecond on. *)
Theorem decimal_expiry_in_milliseconds `{X : Externals}
    (st : CapState) (sid : string) (ev cap : Event) (now e : Z) :
  reaches_expiry_check st sid ev cap →
  tag_value "expiry" (tags cap) = Some (JS.decimal e) →
  snd (handleAuth st sid ev now)
  = if (e * 1000 <? now)%Z
    then AuthResult.mk false "cap expired"
    else AuthResult.mk true "authenticated".
Proof.
  intros Hr Hx. rewrite (handleAuth_at_expiry st sid ev cap now Hr), Hx.
  cbn [JS.truthy_opt].
  rewrite parseInt_decimal, decimal_nonempty.
  cbn [andb]. now rewrite Num_lt_milliseconds.
Qed.

(** ** Ordered maps *)

Section OMapFacts.
Context {V : Type}.
Implicit Types (m : list (string * V)) (k : string) (v : V).

Lemma OMap_set_In k v m : In (k, v) (OMap.set k v m).
Proof.
  induction m as [|[k' v'] m IH]; simpl; [now left|].
  destruct (String.eqb_spec k' k); simpl; auto.
Qed.

Lemma OMap_set_inv k v m k' v' :
  In (k', v') (OMap.set k v m) → (k' = k ∧ v' = v) ∨ In (k', v') m.
Proof.
  induction m as [|[k0 v0] m IH]; simpl.
  - intros [[= <- <-]|[]]. now left.
  - destruct (String.eqb_spec k0 k); simpl.
    + intros [[= <- <-]|H]; [now left | right; now right].
    + intros [H|H]; [right; now left|].
      destruct (IH H) as [?|?]; [now left | right; now right].
Qed.

Lemma OMap_set_other k v m k' v' :
  k' ≠ k → In (k', v') m → In (k', v') (OMap.set k v m).
Proof.
  intros Hne. induction m as [|[k0 v0] m IH]; simpl; [tauto|].
  destruct (String.eqb_spec k0 k); simpl.
  - intros [[= -> ->]|H]; [congruence | now right].
  - intros [H|H]; [now left | right; auto].
Qed.

Lemma OMap_set_keys k v m :
  List.map fst (OMap.set k v m)
  = if bool_decide (k ∈ List.map fst m) then List.map fst m
    else (List.map fst m ++ [k])%list.
Proof.
  induction m as [|[k0 v0] m IH].
  - cbn [OMap.set List.map fst].
    rewrite bool_decide_eq_false_2 by apply not_elem_of_nil. reflexivity.
  - cbn [OMap.set List.map fst].
    destruct (String.eqb_spec k0 k) as [->|Hne]; cbn [List.map fst].
    + rewrite bool_decide_eq_true_2 by apply list_elem_of_here.
      reflexivity.
    + rewrite IH. destruct (decide (k ∈ List.map fst m)) as [Hin|Hout].
      * rewrite !bool_decide_eq_true_2;
          [reflexivity | now apply list_elem_of_further | exact Hin].
      * rewrite !bool_decide_eq_false_2; [reflexivity | | exact Hout].
        intros H. apply elem_of_cons in H as [?|?]; congruence.
Qed.

Lemma OMap_set_unique k v m :
  keys_unique m → keys_unique (OMap.set k v m).
Proof.
  unfold keys_unique. intros H. rewrite OMap_set_keys.
  destruct (bool_decide (k ∈ List.map fst m)) eqn:E; [exact H|].
  apply bool_decide_eq_false_1 in E.
  apply NoDup_app. split; [exact H|]. split; [|apply NoDup_singleton].
  intros x Hx Hk. apply list_elem_of_singleton in Hk. now subst x.
Qed.

Lemma OMap_set_unique_inv k v m k' v' :
  keys_unique m →
  In (k', v') (OMap.set k v m) →
  (k' = k ∧ v' = v) ∨ (k' ≠ k ∧ In (k', v') m).
Proof.
  intros Hu Hin. pose proof (OMap_set_unique k v m Hu) as Hu'.
  destruct (OMap_set_inv k v m k' v' Hin) as [?|Hm]; [now left|].
  destruct (String.eqb_spec k' k) as [->|Hne]; [|right; auto].
  left. split; [reflexivity|].
  pose proof (OMap_set_In k v m) as Hnew.
  unfold keys_unique in Hu'. clear - Hu' Hin Hnew.
  induction (OMap.set k v m) as [|[k0 v0] l IH]; [contradiction|].
  cbn [List.map fst] in Hu'. apply NoDup_cons in Hu' as [Hnot Hrest].
  assert (Hkey : ∀ w, In (k, w) l → k ∈ List.map fst l).
  { intros w Hw. apply list_elem_of_In, in_map_iff. now exists (k, w). }
  destruct Hin as [Hin|Hin], Hnew as [Hnew|Hnew].
  - congruence.
  - exfalso. apply Hnot. injection Hin as -> _. exact (Hkey v Hnew).
  - exfalso. apply Hnot. injection Hnew as -> _. exact (Hkey v' Hin).
  - auto.
Qed.

Lemma OMap_set_idem k v m : OMap.set k v (OMap.set k v m) = OMap.set k v m.
Proof.
  induction m as [|[k0 v0] m IH]; simpl.
  - now rewrite String.eqb_refl.
  - destruct (String.eqb_spec k0 k) as [->|Hne]; simpl.
    + now rewrite String.eqb_refl.
    + destruct (String.eqb_spec k0 k); [contradiction|]. now rewrite IH.
Qed.

Lemma OMap_delete_In k m k' v' :
  In (k', v') (OMap.delete k m) ↔ k' ≠ k ∧ In (k', v') m.
Proof.
  unfold OMap.delete. rewrite filter_In. simpl.
  destruct (String.eqb_spec k' k); simpl; split; intros [? ?]; split;
    auto; congruence.
Qed.

Lemma OMap_delete_keys k m :
  List.map fst (OMap.delete k m)
  = List.filter (fun x => negb (String.eqb x k)) (List.map fst m).
Proof.
  unfold OMap.delete. induction m as [|[k0 v0] m IH]; [reflexivity|].
  simpl. destruct (String.eqb k0 k); simpl; now rewrite IH.
Qed.

Lemma OMap_delete_unique k m : keys_unique m → keys_unique (OMap.delete k m).
Proof.
  unfold keys_unique. rewrite OMap_delete_keys, !NoDup_ListNoDup.
  apply List.NoDup_filter.
Qed.

Lemma OMap_values_In m v : In v (OMap.values m) ↔ ∃ k, In (k, v) m.
Proof.
  unfold OMap.values. rewrite in_map_iff. split.
  - intros ([k v'] & <- & H). now exists k.
  - intros (k & H). now exists (k, v).
Qed.

End OMapFacts.

(** ** What the relay keeps true *)

Section RelayInvariant.
Context `{X : Externals}.

Lemma drop_subs_In (ls : list (string * string))
    (gs : list (string * Callback)) (k : string) (cb : Callback) :
  In (k, cb) (fold_left (fun g kv => OMap.delete (snd kv) g) ls gs)
  ↔ In (k, cb) gs ∧ ∀ kv, In kv ls → snd kv ≠ k.
Proof.
  revert gs. induction ls as [|[l k0] ls IH]; intros gs; simpl.
  - split; [intros H; split; [exact H | intros kv []] | intros [H _]; exact H].
  - rewrite IH, OMap_delete_In. simpl. split.
    + intros [[Hne Hin] Hall]. split; [exact Hin|].
      intros kv [<-|Hkv]; simpl; [congruence | auto].
    + intros [Hin Hall]. split; [split|].
      * intros ->. exact (Hall (l, k0) (or_introl eq_refl) eq_refl).
      * exact Hin.
      * intros kv Hkv. apply Hall. now right.
Qed.

Lemma drop_subs_unique (ls : list (string * string))
    (gs : list (string * Callback)) :
  keys_unique gs →
  keys_unique (fold_left (fun g kv => OMap.delete (snd kv) g) ls gs).
Proof.
  revert gs. induction ls as [|kv ls IH]; intros gs H; simpl; [exact H|].
  apply IH. now apply OMap_delete_unique.
Qed.

Lemma boot_ok : relay_ok boot.
Proof.
  unfold relay_ok, subs_keyed, subs_tracked, keys_unique,
    records_follow_sockets, is_open, boot.
  cbn [gsubs events lsubs cap connections List.map].
  split; [intros k cb []|]. split; [intros k cb []|].
  split; [apply NoDup_nil_2|]. split; [apply NoDup_nil_2|].
  intros sid. rewrite !lookup_empty. split; intros [? H]; discriminate.
Qed.

Lemma insert_open (m : gmap string (list (string * string)))
    (sid s : string) (ls : list (string * string)) :
  is_Some (m !! sid) → (is_Some (<[sid := ls]> m !! s) ↔ is_Some (m !! s)).
Proof.
  intros Hs. rewrite lookup_insert_is_Some. split.
  - intros [<-|[_ H]]; [exact Hs | exact H].
  - intros H. destruct (decide (sid = s)); [now left | now right].
Qed.

Lemma step_keeps_keyed (r : Relay) (i : Input) :
  subs_keyed r → subs_keyed (fst (step r i)).
Proof.
  intros Hk. unfold subs_keyed.
  destruct i as [sid ch|sid m now|sid|]; cbn [step]; [exact Hk| |..].
  - destruct m as [a|ev|l f|l|]; cbn [onMessage].
    + destruct (handleAuth (cap r) sid a now). exact Hk.
    + destruct (negb (verifyEvent ev)); [exact Hk|].
      destruct (negb (WriteResult.ok _)); exact Hk.
    + cbn [fst gsubs]. intros k cb Hin.
      apply OMap_set_inv in Hin as [[-> ->]|Hin]; [reflexivity | auto].
    + cbn [fst gsubs]. intros k cb Hin.
      apply OMap_delete_In in Hin as [_ Hin]. auto.
    + exact Hk.
  - cbn [fst gsubs]. intros k cb Hin.
    apply drop_subs_In in Hin as [Hin _]. auto.
  - exact Hk.
Qed.

Lemma step_keeps_unique (r : Relay) (i : Input) :
  keys_unique (gsubs r) → keys_unique (events r) →
  keys_unique (gsubs (fst (step r i)))
  ∧ keys_unique (events (fst (step r i))).
Proof.
  intros Hg He.
  destruct i as [sid ch|sid m now|sid|]; cbn [step]; [auto| |..].
  - destruct m as [a|ev|l f|l|]; cbn [onMessage]; auto.
    + destruct (handleAuth (cap r) sid a now). auto.
    + destruct (negb (verifyEvent ev)); [auto|].
      destruct (negb (WriteResult.ok _)); [auto|].
      cbn [fst gsubs events]. split; [exact Hg|].
      now apply OMap_set_unique.
    + cbn [fst gsubs events]. split; [|exact He].
      now apply OMap_set_unique.
    + cbn [fst gsubs events]. split; [|exact He].
      now apply OMap_delete_unique.
  - cbn [fst gsubs events]. split; [|exact He].
    now apply drop_subs_unique.
  - cbn [fst gsubs events]. split; [exact Hg | apply NoDup_nil_2].
Qed.

Lemma step_keeps_tracked (r : Relay) (i : Input) :
  subs_keyed r → subs_tracked r → can_happen r i →
  subs_tracked (fst (step r i)).
Proof.
  intros Hk Ht Hcan. unfold subs_tracked.
  destruct i as [sid ch|sid m now|sid|]; cbn [step].
  - cbn [initConnection fst gsubs lsubs]. intros k cb Hin.
    destruct (Ht k cb Hin) as (ls & Hls & Hl). exists ls.
    split; [|exact Hl]. rewrite lookup_insert_ne; [exact Hls|].
    intros E. simpl in Hcan. rewrite E in Hcan. congruence.
  - destruct m as [a|ev|l f|l|]; cbn [onMessage].
    + destruct (handleAuth (cap r) sid a now). exact Ht.
    + destruct (negb (verifyEvent ev)); [exact Ht|].
      destruct (negb (WriteResult.ok _)); exact Ht.
    + cbn [fst gsubs lsubs]. intros k cb Hin.
      apply OMap_set_inv in Hin as [[-> ->]|Hin].
      * cbn [cb_socketId cb_lsubid]. eexists.
        rewrite lookup_insert_eq. split; [reflexivity|].
        apply OMap_set_In.
      * destruct (Ht k cb Hin) as (ls & Hls & Hl).
        destruct (decide (cb_socketId cb = sid)) as [Hs|Hs].
        -- subst sid. eexists. rewrite lookup_insert_eq.
           split; [reflexivity|]. rewrite Hls. cbn [default].
           destruct (String.eqb_spec (cb_lsubid cb) l) as [<-|Hne].
           ++ rewrite (Hk k cb Hin). apply OMap_set_In.
           ++ now apply OMap_set_other.
        -- exists ls. split; [|exact Hl].
           rewrite lookup_insert_ne; [exact Hls | congruence].
    + cbn [fst gsubs lsubs]. intros k cb Hin.
      apply OMap_delete_In in Hin as [Hne Hin].
      destruct (Ht k cb Hin) as (ls & Hls & Hl).
      destruct (decide (cb_socketId cb = sid)) as [Hs|Hs].
      * subst sid. eexists. rewrite lookup_insert_eq.
        split; [reflexivity|]. rewrite Hls. cbn [default].
        apply OMap_delete_In. split; [|exact Hl].
        intros <-. apply Hne. exact (Hk k cb Hin).
      * exists ls. split; [|exact Hl].
        rewrite lookup_insert_ne; [exact Hls | congruence].
    + exact Ht.
  - cbn [fst gsubs lsubs]. intros k cb Hin.
    apply drop_subs_In in Hin as [Hin Hall].
    destruct (Ht k cb Hin) as (ls & Hls & Hl).
    destruct (decide (cb_socketId cb = sid)) as [Hs|Hs].
    + exfalso. subst sid. rewrite Hls in Hall. cbn [default] in Hall.
      exact (Hall _ Hl eq_refl).
    + exists ls. split; [|exact Hl].
      rewrite lookup_delete_ne; [exact Hls | congruence].
  - exact Ht.
Qed.

Lemma step_keeps_records (r : Relay) (i : Input) :
  records_follow_sockets r → can_happen r i →
  records_follow_sockets (fst (step r i)).
Proof.
  intros Hr Hcan. unfold records_follow_sockets, is_open in *.
  destruct i as [sid ch|sid m now|sid|]; cbn [step].
  - cbn [initConnection fst cap lsubs connections]. intros s.
    rewrite !lookup_insert_is_Some. now rewrite Hr.
  - destruct m as [a|ev|l f|l|]; cbn [onMessage].
    + pose proof (handleAuth_records (cap r) sid) as Ha.
      destruct (handleAuth (cap r) sid a now) as [st res] eqn:E.
      cbn [fst cap lsubs]. intros s. specialize (Ha s a now).
      rewrite E in Ha. cbn [fst] in Ha. now rewrite Ha.
    + destruct (negb (verifyEvent ev)); [exact Hr|].
      destruct (negb (WriteResult.ok _)); [exact Hr|].
      cbn [fst cap lsubs]. intros s.
      now rewrite processEvent_connections.
    + cbn [fst cap lsubs]. intros s.
      rewrite (insert_open _ sid s _ Hcan). apply Hr.
    + cbn [fst cap lsubs]. intros s.
      rewrite (insert_open _ sid s _ Hcan). apply Hr.
    + exact Hr.
  - cbn [fst cap lsubs cleanupConnection connections]. intros s.
    rewrite !lookup_delete_is_Some. now rewrite Hr.
  - exact Hr.
Qed.

Lemma step_ok (r : Relay) (i : Input) :
  relay_ok r → can_happen r i → relay_ok (fst (step r i)).
Proof.
  intros (Hk & Ht & Hg & He & Hr) Hcan.
  destruct (step_keeps_unique r i Hg He) as [Hg' He'].
  split; [now apply step_keeps_keyed|].
  split; [now apply step_keeps_tracked|].
  split; [exact Hg'|]. split; [exact He'|].
  now apply step_keeps_records.
Qed.

Lemma run_ok (r : Relay) (inputs : list Input) :
  relay_ok r → can_run r inputs → relay_ok (run r inputs).
Proof.
  revert r. induction inputs as [|i inputs IH]; intros r Hok Hrun;
    [exact Hok|].
  destruct Hrun as [Hcan Hrest]. simpl. apply IH; [|exact Hrest].
  now apply step_ok.
Qed.

End RelayInvariant.

(** ** What the relay sends *)

Section RelaySends.
Context `{X : Externals}.

Lemma makecb_In (st : CapState) (cb : Callback) (ev : Event)
    (s : string) (m : OutMsg) :
  In (s, m) (makecb st cb ev)
  ↔ s = cb_socketId cb ∧ m = OutEVENT (cb_lsubid cb) ev
    ∧ visible st (cb_socketId cb) (cb_filters cb) ev = true.
Proof.
  unfold makecb, visible.
  destruct (matchFilters (cb_filters cb) ev); cbn [andb].
  - destruct (canRead st (cb_socketId cb) ev); cbn [negb In].
    + split; [intros [[= <- <-]|[]]; auto | intros (-> & -> & _); now left].
    + split; [intros [] | intros (_ & _ & H); discriminate].
  - split; [intros [] | intros (_ & _ & H); discriminate].
Qed.

Lemma sendStored_In (st : CapState) (sid l : string) (f : Filters)
    (evs : list Event) (s : string) (m : OutMsg) :
  In (s, m) (sendStored st sid l f evs)
  ↔ s = sid ∧ ∃ e, m = OutEVENT l e ∧ In e evs
                   ∧ visible st sid f e = true.
Proof.
  unfold sendStored. rewrite in_flat_map. split.
  - intros (e & He & Hin).
    pose proof (makecb_In st (mkCallback sid l f) e s m) as Hcb.
    unfold makecb in Hcb. cbn [cb_socketId cb_lsubid cb_filters] in Hcb.
    apply Hcb in Hin as (-> & -> & Hv). split; [reflexivity|].
    exists e. auto.
  - intros (-> & e & -> & He & Hv). exists e. split; [exact He|].
    pose proof (makecb_In st (mkCallback sid l f) e sid (OutEVENT l e))
      as Hcb.
    unfold makecb in Hcb. cbn [cb_socketId cb_lsubid cb_filters] in Hcb.
    apply Hcb. auto.
Qed.

Lemma sendStored_filter (st : CapState) (sid l : string) (f : Filters)
    (evs : list Event) :
  sendStored st sid l f evs
  = List.map (fun e => (sid, OutEVENT l e))
             (List.filter (visible st sid f) evs).
Proof.
  unfold sendStored, visible.
  induction evs as [|e evs IH]; [reflexivity|]. cbn [flat_map List.filter].
  rewrite IH. destruct (matchFilters f e); cbn [andb]; [|reflexivity].
  destruct (canRead st sid e); reflexivity.
Qed.

Lemma fanout_In (st : CapState) (gs : list (string * Callback))
    (ev : Event) (s : string) (m : OutMsg) :
  In (s, m) (flat_map (fun cb => makecb st cb ev) (OMap.values gs))
  ↔ ∃ k cb, In (k, cb) gs ∧ s = cb_socketId cb
            ∧ m = OutEVENT (cb_lsubid cb) ev
            ∧ visible st (cb_socketId cb) (cb_filters cb) ev = true.
Proof.
  rewrite in_flat_map. split.
  - intros (cb & Hcb & Hin). apply OMap_values_In in Hcb as (k & Hk).
    apply makecb_In in Hin. exists k, cb. tauto.
  - intros (k & cb & Hk & H). exists cb. split.
    + apply OMap_values_In. now exists k.
    + now apply makecb_In.
Qed.

Lemma event_step_rejected (r : Relay) (sid : string) (ev : Event)
    (now : Z) :
  accepted r sid ev = false →
  ∃ reason,
    step r (Message sid (EVENT ev) now)
    = (r, [(sid, OutOK (id ev) false reason)])
    ∧ (verifyEvent ev = false →
       reason = "invalid: signature verification failed")
    ∧ (verifyEvent ev = true →
       WriteResult.reason (canWrite (cap r) sid ev) = Some reason).
Proof.
  unfold accepted. cbn [step onMessage].
  destruct (verifyEvent ev); cbn [negb andb].
  - intros Hw. rewrite Hw. cbn [negb].
    destruct (WriteResult.reason (canWrite (cap r) sid ev)) as [reason|]
      eqn:E.
    + exists reason. split; [reflexivity|]. split; [discriminate | auto].
    + exfalso. revert Hw E. unfold canWrite.
      repeat (match goal with
              | |- context [match ?d with _ => _ end] => destruct d
              end; cbn [WriteResult.ok WriteResult.reason];
              try discriminate).
  - intros _. eexists. split; [reflexivity|]. split; [auto | discriminate].
Qed.

Lemma event_step_accepted (r : Relay) (sid : string) (ev : Event)
    (now : Z) :
  accepted r sid ev = true →
  step r (Message sid (EVENT ev) now)
  = (mkRelay (processEvent (cap r) ev) (gsubs r)
             (OMap.set (id ev) ev (events r)) (lsubs r),
     (flat_map (fun cb => makecb (processEvent (cap r) ev) cb ev)
               (OMap.values (gsubs r))
      ++ [(sid, OutOK (id ev) true "")])%list).
Proof.
  unfold accepted. intros H. apply andb_true_iff in H as [Hv Hw].
  cbn [step onMessage]. now rewrite Hv, Hw.
Qed.

End RelaySends.

(** X19: from start-up on, through any sequence of turns that can happen (a
    socket connects under an id not in use; messages and close events come
    from open sockets), no two stored events share an id, no two
    subscriptions share a key, every subscription sits under the key
    socket:id of its own socket and local id and is listed in that socket's
    local map, and the sockets with a connection record are exactly the open
    ones. *)
Theorem relay_keeps_its_maps_in_order `{X : Externals} :
  relay_ok boot
  ∧ (∀ (r : Relay) (i : Input),
       relay_ok r → can_happen r i → relay_ok (fst (step r i)))
  ∧ (∀ inputs : list Input, can_run boot inputs →
                            relay_ok (run boot inputs)).
Proof.
  split; [apply boot_ok|]. split; [apply step_ok|].
  intros inputs. apply run_ok, boot_ok.
Qed.

Lemma step_recipients_open `{X : Externals} (r : Relay) (i : Input)
    (s : string) (m : OutMsg) :
  subs_tracked r → can_happen r i →
  In (s, m) (snd (step r i)) → is_open (fst (step r i)) s.
Proof.
  intros Ht Hcan. unfold is_open.
  destruct i as [sid ch|sid msg now|sid|]; cbn [step].
  - cbn [initConnection fst snd lsubs]. intros [[= <- _]|[]].
    now rewrite lookup_insert_eq.
  - simpl in Hcan. destruct msg as [a|ev|l f|l|]; cbn [onMessage].
    + destruct (handleAuth (cap r) sid a now) as [st [ok msg|]];
        cbn [fst snd lsubs]; [|intros []].
      intros [[= <- _]|[]]. exact Hcan.
    + destruct (accepted r sid ev) eqn:Hacc.
      * pose proof (event_step_accepted r sid ev now Hacc) as E.
        cbn [step onMessage] in E. rewrite E. cbn [fst snd lsubs].
        rewrite in_app_iff. intros [Hin|[[= <- _]|[]]]; [|exact Hcan].
        apply fanout_In in Hin as (k & cb & Hk & -> & _).
        destruct (Ht k cb Hk) as (ls & Hls & _). now rewrite Hls.
      * destruct (event_step_rejected r sid ev now Hacc) as (reason & E & _).
        cbn [step onMessage] in E. rewrite E. cbn [fst snd].
        intros [[= <- _]|[]]. exact Hcan.
    + cbn [fst snd lsubs]. rewrite in_app_iff.
      intros [Hin|[[= <- _]|[]]].
      * apply sendStored_In in Hin as [-> _]. now rewrite lookup_insert_eq.
      * now rewrite lookup_insert_eq.
    + intros [].
    + intros [].
  - intros [].
  - intros [].
Qed.

(** X20: the relay never writes to a closed socket: in a state kept as in
    X19, every message a turn sends goes to a socket that is open after the
    turn; and once a socket has closed, no subscription of it is left and
    it has neither a connection record nor an open handler. *)
Theorem never_sends_to_closed_socket `{X : Externals}
    (r : Relay) (i : Input) :
  relay_ok r → can_happen r i →
  (∀ (s : string) (m : OutMsg),
     In (s, m) (snd (step r i)) → is_open (fst (step r i)) s)
  ∧ (∀ sid : string,
       i = Disconnect sid →
       ¬ is_open (fst (step r i)) sid
       ∧ connections (cap (fst (step r i))) !! sid = None
       ∧ ∀ k cb, In (k, cb) (gsubs (fst (step r i))) →
                 cb_socketId cb ≠ sid).
Proof.
  intros Hok Hcan. split.
  - intros s m. apply step_recipients_open; [apply Hok | exact Hcan].
  - intros sid ->. pose proof (step_ok r (Disconnect sid) Hok Hcan) as Hok'.
    destruct Hok' as (_ & Ht' & _).
    assert (Hclosed : lsubs (fst (step r (Disconnect sid))) !! sid = None).
    { cbn [step fst lsubs]. apply lookup_delete_eq. }
    split; [|split].
    + unfold is_open. rewrite Hclosed. intros [? H]. discriminate.
    + cbn [step fst cap cleanupConnection connections].
      apply lookup_delete_eq.
    + intros k cb Hin E. destruct (Ht' k cb Hin) as (ls & Hls & _).
      rewrite E in Hls. congruence.
Qed.

(** X21: CLOSE takes effect at once: after a CLOSE of subscription l on a
    socket, an event published by anyone is not delivered to that socket
    under l. *)
Theorem close_stops_delivery `{X : Externals}
    (r : Relay) (sid l : string) (now : Z) :
  subs_keyed r →
  ∀ (sid' : string) (ev e : Event) (now' : Z),
    ¬ In (sid, OutEVENT l e)
         (snd (step (fst (step r (Message sid (CLOSE l) now)))
                    (Message sid' (EVENT ev) now'))).
Proof.
  intros Hk sid' ev e now'.
  set (r1 := fst (step r (Message sid (CLOSE l) now))).
  destruct (accepted r1 sid' ev) eqn:Hacc.
  - rewrite (event_step_accepted r1 sid' ev now' Hacc). cbn [snd].
    rewrite in_app_iff. intros [Hin|[[= _ ?]|[]]].
    apply fanout_In in Hin as (k & cb & Hin & Hs & Hm & _).
    injection Hm as Hl _.
    unfold r1 in Hin. cbn [step onMessage fst gsubs] in Hin.
    apply OMap_delete_In in Hin as [Hne Hin]. apply Hne.
    rewrite (Hk k cb Hin). now rewrite <- Hs, <- Hl.
  - destruct (event_step_rejected r1 sid' ev now' Hacc) as (reason & E & _).
    rewrite E. cbn [snd]. intros [[= _ ?]|[]].
Qed.

(** X22: an EVENT message goes out only to sockets that may read it: every
    EVENT message a turn sends carries an event that canRead lets the
    receiving socket read in the state after the turn, and it is either the
    event just accepted, sent to a subscription whose filters match it, or
    a stored event answering the receiver's own REQ. *)
Theorem only_readable_events_are_sent `{X : Externals}
    (r : Relay) (i : Input) (s l : string) (e : Event) :
  In (s, OutEVENT l e) (snd (step r i)) →
  canRead (cap (fst (step r i))) s e = true
  ∧ ((∃ sid now k cb,
        i = Message sid (EVENT e) now ∧ accepted r sid e = true
        ∧ In (k, cb) (gsubs r) ∧ cb_socketId cb = s ∧ cb_lsubid cb = l
        ∧ matchFilters (cb_filters cb) e = true)
     ∨ (∃ f now k,
          i = Message s (REQ l f) now ∧ In (k, e) (events r)
          ∧ matchFilters f e = true)).
Proof.
  destruct i as [sid ch|sid msg now|sid|]; cbn [step].
  - cbn [initConnection snd]. intros [[= ]|[]].
  - destruct msg as [a|ev|l' f|l'|]; cbn [onMessage].
    + destruct (handleAuth (cap r) sid a now) as [st [ok msg|]];
        cbn [snd]; [intros [[= ]|[]] | intros []].
    + destruct (accepted r sid ev) eqn:Hacc.
      * pose proof (event_step_accepted r sid ev now Hacc) as E.
        cbn [step onMessage] in E. rewrite E. cbn [fst snd cap].
        rewrite in_app_iff. intros [Hin|[[= ]|[]]].
        apply fanout_In in Hin as (k & cb & Hk & -> & Hm & Hv).
        injection Hm as -> ->. unfold visible in Hv.
        apply andb_true_iff in Hv as [Hf Hr]. split; [exact Hr|].
        left. exists sid, now, k, cb. auto 10.
      * destruct (event_step_rejected r sid ev now Hacc) as (reason & E & _).
        cbn [step onMessage] in E. rewrite E. cbn [snd].
        intros [[= ]|[]].
    + cbn [fst snd cap]. rewrite in_app_iff. intros [Hin|[[= ]|[]]].
      apply sendStored_In in Hin as (-> & e' & Hm & He & Hv).
      injection Hm as -> ->. unfold visible in Hv.
      apply andb_true_iff in Hv as [Hf Hr]. split; [exact Hr|].
      right. apply OMap_values_In in He as (k & Hk).
      exists f, now, k. auto.
    + intros [].
    + intros [].
  - intros [].
  - intros [].
Qed.

(** X14: an EVENT that is not accepted changes nothing in the relay and is
    answered by exactly one OK=false to its sender; a failed signature is
    reported as such whatever the write check would say, and otherwise the
    reason is the one canWrite gives. *)
Theorem rejected_event_changes_nothing `{X : Externals}
    (r : Relay) (sid : string) (ev : Event) (now : Z) :
  accepted r sid ev = false →
  fst (step r (Message sid (EVENT ev) now)) = r
  ∧ ∃ reason,
      snd (step r (Message sid (EVENT ev) now))
      = [(sid, OutOK (id ev) false reason)]
      ∧ (verifyEvent ev = false →
         reason = "invalid: signature verification failed")
      ∧ (verifyEvent ev = true →
         WriteResult.reason (canWrite (cap r) sid ev) = Some reason).
Proof.
  intros Hacc.
  destruct (event_step_rejected r sid ev now Hacc) as (reason & E & H1 & H2).
  rewrite E. split; [reflexivity|]. exists reason. auto.
Qed.

(** X23: an accepted EVENT is stored under its id, replacing an event
    stored under that id and leaving all others; it changes no connection
    record and no subscription; every subscription whose filters match and
    whose socket may read it gets it; and the last message sent is the one
    OK=true to the sender. *)
Theorem accepted_event_is_stored_and_fanned_out `{X : Externals}
    (r : Relay) (sid : string) (ev : Event) (now : Z) :
  accepted r sid ev = true →
  In (id ev, ev) (events (fst (step r (Message sid (EVENT ev) now))))
  ∧ (∀ k e, k ≠ id ev →
            (In (k, e) (events (fst (step r (Message sid (EVENT ev) now))))
             ↔ In (k, e) (events r)))
  ∧ connections (cap (fst (step r (Message sid (EVENT ev) now))))
    = connections (cap r)
  ∧ gsubs (fst (step r (Message sid (EVENT ev) now))) = gsubs r
  ∧ (∀ k cb,
       In (k, cb) (gsubs r) →
       visible (cap (fst (step r (Message sid (EVENT ev) now))))
               (cb_socketId cb) (cb_filters cb) ev = true →
       In (cb_socketId cb, OutEVENT (cb_lsubid cb) ev)
          (snd (step r (Message sid (EVENT ev) now))))
  ∧ (∃ deliveries,
       snd (step r (Message sid (EVENT ev) now))
       = (deliveries ++ [(sid, OutOK (id ev) true "")])%list
       ∧ ∀ s m, In (s, m) deliveries → ∃ l, m = OutEVENT l ev).
Proof.
  intros Hacc. rewrite (event_step_accepted r sid ev now Hacc).
  cbn [fst snd events cap gsubs].
  split; [apply OMap_set_In|]. split; [|split; [|split; [|split]]].
  - intros k e Hne. split.
    + intros H. apply OMap_set_inv in H as [[? _]|H]; [contradiction|].
      exact H.
    + now apply OMap_set_other.
  - apply processEvent_connections.
  - reflexivity.
  - intros k cb Hin Hv. apply in_app_iff. left. apply fanout_In.
    exists k, cb. auto.
  - eexists. split; [reflexivity|]. intros s m Hin.
    apply fanout_In in Hin as (k & cb & _ & _ & -> & _). eauto.
Qed.

(** X24: a REQ is answered with the stored events its filters match and
    its socket may read, in store order, each under the subscription id,
    followed by one EOSE, all to the requesting socket; it changes neither
    the store nor any connection record; with an empty store the answer is
    the EOSE alone; and from then on an accepted event that the filters
    match and the socket may read is delivered under that id. *)
Theorem req_answers_from_the_store `{X : Externals}
    (r : Relay) (sid l : string) (f : Filters) (now : Z) :
  snd (step r (Message sid (REQ l f) now))
  = (List.map (fun e => (sid, OutEVENT l e))
              (List.filter (visible (cap r) sid f) (OMap.values (events r)))
     ++ [(sid, OutEOSE l)])%list
  ∧ cap (fst (step r (Message sid (REQ l f) now))) = cap r
  ∧ events (fst (step r (Message sid (REQ l f) now))) = events r
  ∧ (events r = [] →
     snd (step r (Message sid (REQ l f) now)) = [(sid, OutEOSE l)])
  ∧ (∀ (sid' : string) (ev : Event) (now' : Z),
       accepted r sid' ev = true →
       visible (processEvent (cap r) ev) sid f ev = true →
       In (sid, OutEVENT l ev)
          (snd (step (fst (step r (Message sid (REQ l f) now)))
                     (Message sid' (EVENT ev) now')))).
Proof.
  split; [cbn [step onMessage snd]; now rewrite sendStored_filter|].
  split; [reflexivity|]. split; [reflexivity|]. split.
  - intros E. cbn [step onMessage snd]. rewrite E. reflexivity.
  - intros sid' ev now' Hacc Hv.
    set (r1 := fst (step r (Message sid (REQ l f) now))).
    assert (Hacc1 : accepted r1 sid' ev = true) by exact Hacc.
    rewrite (event_step_accepted r1 sid' ev now' Hacc1). cbn [snd].
    apply in_app_iff. left. apply fanout_In.
    exists (sid +:+ ":" +:+ l), (mkCallback sid l f).
    split; [apply OMap_set_In|]. auto.
Qed.

Lemma fanout_NoDup `{X : Externals} (st : CapState)
    (gs : list (string * Callback)) (ev : Event) :
  keys_unique gs →
  (∀ k cb, In (k, cb) gs → k = gsubid (cb_socketId cb) (cb_lsubid cb)) →
  NoDup (flat_map (fun cb => makecb st cb ev) (OMap.values gs)).
Proof.
  unfold keys_unique.
  induction gs as [|[k cb] gs IH]; intros Hu Hk; [apply NoDup_nil_2|].
  cbn [OMap.values List.map snd flat_map].
  cbn [List.map fst] in Hu. apply NoDup_cons in Hu as [Hnot Hu].
  assert (Hrest : NoDup (flat_map (fun cb => makecb st cb ev)
                           (OMap.values gs))).
  { apply IH; [exact Hu|]. intros k' cb' H. apply Hk. now right. }
  unfold makecb at 1.
  destruct (matchFilters (cb_filters cb) ev); [|exact Hrest].
  destruct (negb (canRead st (cb_socketId cb) ev)); [exact Hrest|].
  cbn [app]. apply NoDup_cons. split; [|exact Hrest].
  intros Hin. apply list_elem_of_In in Hin.
  apply fanout_In in Hin as (k' & cb' & Hin & Hs & Hm & _).
  injection Hm as Hl. apply Hnot. apply list_elem_of_In, in_map_iff.
  exists (k', cb'). split; [|exact Hin]. cbn [fst].
  rewrite (Hk k cb (or_introl eq_refl)), (Hk k' cb' (or_intror Hin)).
  now rewrite Hs, Hl.
Qed.

(** X25: no double delivery: in a state kept as in X19, the messages sent
    for one EVENT are pairwise different, so a socket gets the event at
    most once per subscription id and the sender gets one OK. *)
Theorem no_double_delivery `{X : Externals}
    (r : Relay) (sid : string) (ev : Event) (now : Z) :
  relay_ok r →
  NoDup (snd (step r (Message sid (EVENT ev) now))).
Proof.
  intros (Hk & _ & Hu & _).
  destruct (accepted r sid ev) eqn:Hacc.
  - rewrite (event_step_accepted r sid ev now Hacc). cbn [snd].
    apply NoDup_app. split; [now apply fanout_NoDup|].
    split; [|apply NoDup_singleton].
    intros [s m] Hin Hok. apply list_elem_of_singleton in Hok.
    apply list_elem_of_In, fanout_In in Hin as (k & cb & _ & _ & Hm & _).
    injection Hok as _ ->. discriminate.
  - destruct (event_step_rejected r sid ev now Hacc) as (reason & E & _).
    rewrite E. cbn [snd]. apply NoDup_singleton.
Qed.

(** X26: the timer empties the store and nothing else: it sends nothing;
    a REQ that follows is answered by its EOSE alone; and an EVENT that
    follows gets the same answer and the same deliveries as it would have
    without the timer, since subscriptions, connection records and the
    enforced set are as before. *)
Theorem timer_clears_only_the_store `{X : Externals} (r : Relay) :
  snd (step r Tick) = []
  ∧ events (fst (step r Tick)) = []
  ∧ (∀ (sid l : string) (f : Filters) (now : Z),
       snd (step (fst (step r Tick)) (Message sid (REQ l f) now))
       = [(sid, OutEOSE l)])
  ∧ (∀ (sid : string) (ev : Event) (now : Z),
       snd (step (fst (step r Tick)) (Message sid (EVENT ev) now))
       = snd (step r (Message sid (EVENT ev) now)))
  ∧ (∀ (sid : string) (a : Event) (now : Z),
       snd (step (fst (step r Tick)) (Message sid (AUTH a) now))
       = snd (step r (Message sid (AUTH a) now))).
Proof.
  split; [reflexivity|]. split; [reflexivity|]. split; [reflexivity|].
  split.
  - intros sid ev now. cbn [step onMessage fst cap gsubs].
    destruct (negb (verifyEvent ev)); [reflexivity|].
    destruct (negb (WriteResult.ok (canWrite (cap r) sid ev))); reflexivity.
  - intros sid a now. cbn [step onMessage fst cap].
    destruct (handleAuth (cap r) sid a now). reflexivity.
Qed.

(** X27: the challenge sent on connect is the one AUTH wants: connecting
    sends exactly one AUTH message carrying the challenge, and on the fresh
    connection an AUTH event of kind 22242 with a valid signature and no
    capability succeeds exactly when its challenge tag carries that
    challenge. *)
Theorem connect_challenge_round_trip `{X : Externals}
    (r : Relay) (sid ch : string) :
  snd (step r (Connect sid ch)) = [(sid, OutAUTH ch)]
  ∧ ∀ (ev : Event) (now : Z),
      kind ev = AUTH_KIND → verifyEvent ev = true →
      presented_cap ev = None →
      (AuthResult.ok
         (snd (handleAuth (cap (fst (step r (Connect sid ch)))) sid ev now))
       = true
       ↔ tag_value "challenge" (tags ev) = Some ch).
Proof.
  split; [reflexivity|]. intros ev now Hk Hv Hp.
  rewrite handleAuth_ok_iff. unfold auth_passes.
  cbn [step initConnection fst cap connections].
  rewrite lookup_insert_eq. split.
  - intros (conn & [= <-] & _ & _ & Hch & _). exact Hch.
  - intros Hch. eexists. split; [reflexivity|]. auto.
Qed.

(** X28: publishing an event again never changes the store: after an EVENT
    message the same message leaves the stored events as they are; and an
    accepted event whose id is already stored takes the place of the stored
    one, the ids and their order staying the same, while a new id goes to
    the end. *)
Theorem republishing_replaces_in_place `{X : Externals}
    (r : Relay) (sid : string) (ev : Event) (now : Z) :
  events (fst (step (fst (step r (Message sid (EVENT ev) now)))
                    (Message sid (EVENT ev) now)))
  = events (fst (step r (Message sid (EVENT ev) now)))
  ∧ (accepted r sid ev = true →
     List.map fst (events (fst (step r (Message sid (EVENT ev) now))))
     = if bool_decide (id ev ∈ List.map fst (events r))
       then List.map fst (events r)
       else (List.map fst (events r) ++ [id ev])%list).
Proof.
  split.
  - destruct (accepted r sid ev) eqn:Hacc.
    + rewrite (event_step_accepted r sid ev now Hacc). cbn [fst].
      set (r1 := mkRelay _ _ _ _).
      destruct (accepted r1 sid ev) eqn:Hacc1.
      * rewrite (event_step_accepted r1 sid ev now Hacc1).
        cbn [fst events r1]. apply OMap_set_idem.
      * destruct (event_step_rejected r1 sid ev now Hacc1)
          as (reason & E & _).
        rewrite E. reflexivity.
    + destruct (event_step_rejected r sid ev now Hacc) as (reason & E & _).
      rewrite E. cbn [fst]. rewrite E. reflexivity.
  - intros Hacc. rewrite (event_step_accepted r sid ev now Hacc).
    cbn [fst events]. apply OMap_set_keys.
Qed.

(** X29: a socket's connection record changes only through that socket's
    own connect, disconnect or AUTH: every other turn, on this or any other
    socket, leaves its identity, grants and challenge as they are. *)
Theorem record_changes_only_by_own_turns `{X : Externals}
    (r : Relay) (i : Input) (s : string) :
  (∀ ch, i ≠ Connect s ch) →
  i ≠ Disconnect s →
  (∀ a now, i ≠ Message s (AUTH a) now) →
  connections (cap (fst (step r i))) !! s = connections (cap r) !! s.
Proof.
  intros Hc Hd Ha.
  destruct i as [sid ch|sid msg now|sid|]; cbn [step].
  - cbn [initConnection fst cap connections].
    apply lookup_insert_ne. intros ->. exact (Hc ch eq_refl).
  - destruct msg as [a|ev|l f|l|]; cbn [onMessage]; try reflexivity.
    + pose proof (handleAuth_other_sockets (cap r) sid s a now) as H.
      destruct (handleAuth (cap r) sid a now) as [st res].
      cbn [fst cap] in *. apply H. intros ->. exact (Ha a now eq_refl).
    + destruct (negb (verifyEvent ev)); [reflexivity|].
      destruct (negb (WriteResult.ok _)); [reflexivity|].
      cbn [fst cap]. now rewrite processEvent_connections.
  - cbn [fst cap cleanupConnection connections].
    apply lookup_delete_ne. intros ->. exact (Hd eq_refl).
  - reflexivity.
Qed.

(** ** The further properties on the sample relays *)

Ltac pick_member :=
  vm_compute; repeat (first [left; reflexivity | right]).


Lemma cleanup_connection_forgets_witness :
  cleanupConnection
    (fst (initConnection (mkCapState ∅ ∅) "sock-z" "ch-z")) "sock-z"
  = mkCapState ∅ ∅.
Proof.
  destruct (cleanup_connection_forgets (X := Sample.X) (mkCapState ∅ ∅)
              "sock-z") as (_ & _ & _ & _ & H).
  apply H. apply lookup_empty.
Defined.

Lemma auth_succeeds_iff_witness :
  auth_passes (X := Sample.X) (cap Sample.enforced) "sock-b" Sample.authB
    50000.
Proof.
  apply (auth_succeeds_iff (X := Sample.X)). exact authB_ok_sample.
Defined.

Lemma auth_touches_one_record_witness :
  connections
    (fst (handleAuth (X := Sample.X) (cap Sample.enforced) "sock-b"
            Sample.authB 50000)) !! "sock-a"
  = connections (cap Sample.enforced) !! "sock-a".
Proof.
  destruct (auth_touches_one_record (X := Sample.X) (cap Sample.enforced)
              "sock-b" Sample.authB 50000) as (H & _).
  apply H. discriminate.
Defined.

Lemma auth_first_failure_witness :
  snd (handleAuth (X := Sample.X) (cap Sample.enforced) "sock-b"
         (Sample.note "B" (num 1)) 0)
  = AuthResult.mk false "invalid auth kind: expected 22242, got 1".
Proof.
  destruct (auth_first_failure (X := Sample.X) (cap Sample.enforced)
              "sock-b" (Sample.note "B" (num 1)) 0) as (_ & H & _).
  destruct (H _ enforced_conn_sample) as (Hk & _).
  apply Hk. discriminate.
Defined.



Lemma parse_grants_shape_witness :
  matchesCommons
    (Grant.commons (Grant.mk (Some "access") "*" "*")) "39002:A:g" = true.
Proof.
  destruct (parse_grants_shape
              (mkEvent "c" "A" (num 29000) [["cap"; "access"]]))
    as (_ & _ & H & _).
  apply (H eq_refl). left. reflexivity.
Defined.

Lemma in_registered_scenario :
  "39002:A:g" ∈ enforcedCommons (cap Scenario.registered).
Proof. apply (bool_decide_unpack _). vm_compute. exact I. Defined.

Lemma reaches_expiry_scenario :
  reaches_expiry_check (X := Scenario.X) (cap Scenario.registered) "sock-b"
    Scenario.authB_self Scenario.selfcap.
Proof.
  exists (Conn.mk None [] "ch-b"), "cap-self-json".
  split; [vm_compute; reflexivity|]. repeat split; reflexivity.
Defined.

(** B signs a capability for itself over A's commons, presents it, and
    then publishes to "39002:A:g". *)
Lemma capability_issuer_is_not_checked_witness :
  pubkey Scenario.selfcap = "B"
  ∧ owner_field "39002:A:g" = Some "A"
  ∧ canWrite
      (fst (handleAuth (X := Scenario.X) (cap Scenario.registered) "sock-b"
              Scenario.authB_self 0)) "sock-b"
      (mkEvent "e-note" "B" (num 1) [["a"; "39002:A:g"]])
    = WriteResult.mk true None.
Proof.
  split; [reflexivity|]. split; [reflexivity|].
  destruct (capability_issuer_is_not_checked (X := Scenario.X)
              (cap Scenario.registered) "sock-b" Scenario.authB_self
              Scenario.selfcap 0 "39002:A:g" reaches_expiry_scenario
              eq_refl ltac:(discriminate) eq_refl in_registered_scenario)
    as (_ & H).
  apply (H "e-note" (num 1)).
Defined.

Lemma process_event_is_idempotent_witness :
  processEvent (cap Sample.enforced) (Sample.note "B" (num 1))
  = cap Sample.enforced.
Proof.
  destruct (process_event_is_idempotent (cap Sample.enforced)
              (Sample.note "B" (num 1))) as (H & _).
  apply H. discriminate.
Defined.

(** Before "39002:A:g" is registered anyone publishes to it. *)
Lemma unrestricted_outside_enforced_commons_witness :
  canWrite (mkCapState ∅ ∅) "sock-b" (Sample.note "B" (num 1))
  = WriteResult.mk true None
  ∧ canRead (mkCapState ∅ ∅) "sock-b" (Sample.note "B" (num 1)) = true.
Proof.
  destruct (unrestricted_outside_enforced_commons (mkCapState ∅ ∅) "sock-b"
              (Sample.note "B" (num 1))) as (_ & H).
  apply H. intros c _. apply not_elem_of_empty.
Defined.



Lemma more_enforcement_never_widens_witness :
  canRead (mkCapState (connections (cap Sample.granted)) ∅) "sock-a"
          (Sample.note "A" (num 7)) = true.
Proof.
  set (st := mkCapState (connections (cap Sample.granted)) (∅ : gset string)).
  set (st' := mkCapState (connections (cap Sample.granted))
                         ({["39002:B:x"]} : gset string)).
  assert (Hsub : enforcedCommons st ⊆ enforcedCommons st').
  { intros x Hx. exfalso. revert Hx. apply not_elem_of_empty. }
  destruct (more_enforcement_never_widens st st' "sock-a"
              (Sample.note "A" (num 7)) eq_refl Hsub) as (_ & H).
  apply H. vm_compute. reflexivity.
Defined.

Lemma rejected_event_changes_nothing_witness :
  fst (step Sample.enforced (Message "sock-b" (EVENT (Sample.note "B" (num 1))) 0))
  = Sample.enforced.
Proof.
  destruct (rejected_event_changes_nothing (X := Sample.X) Sample.enforced
              "sock-b" (Sample.note "B" (num 1)) 0) as (H & _);
    [vm_compute; reflexivity | exact H].
Defined.

Lemma wildcard_grant_covers_one_owner_witness :
  matchesCommons "39002:A:*" "39002:A:g" = true
  ∧ matchesCommons "39002:A:*" "39002:AB:g" ≠ true.
Proof.
  split.
  - apply (wildcard_grant_covers_one_owner "A" "A" "g" eq_refl eq_refl).
    reflexivity.
  - intros H.
    apply (wildcard_grant_covers_one_owner "A" "AB" "g" eq_refl eq_refl)
      in H.
    discriminate H.
Defined.

Lemma decimal_expiry_in_milliseconds_witness :
  snd (handleAuth (X := Sample.X) (cap Sample.granted) "sock-b"
         Sample.authB_read 100001)
  = AuthResult.mk false "cap expired".
Proof.
  apply (decimal_expiry_in_milliseconds (X := Sample.X) (cap Sample.granted)
           "sock-b" Sample.authB_read Sample.capB_read 100001 100
           reaches_expiry_sample eq_refl).
Defined.

Lemma can_run_scenario :
  can_run (X := Scenario.X) boot Scenario.subscribed_turns.
Proof.
  unfold Scenario.subscribed_turns. cbn [can_run can_happen].
  repeat split; unfold is_open;
    first [ vm_compute; reflexivity | vm_compute; eexists; reflexivity ].
Defined.

Lemma relay_ok_scenario : relay_ok Scenario.subscribed.
Proof. apply run_ok; [apply boot_ok | exact can_run_scenario]. Defined.

Lemma relay_keeps_its_maps_in_order_witness :
  keys_unique (events Scenario.subscribed)
  ∧ keys_unique (gsubs Scenario.subscribed).
Proof.
  destruct (relay_keeps_its_maps_in_order (X := Scenario.X)) as (_ & _ & H).
  destruct (H Scenario.subscribed_turns can_run_scenario)
    as (_ & _ & Hg & He & _).
  split; [exact He | exact Hg].
Defined.

Lemma sock_c_open_scenario : is_open Scenario.subscribed "sock-c".
Proof. unfold is_open. vm_compute. eexists. reflexivity. Defined.

(** C publishes a kind-1 note; the delivery to B's "feed" goes to an open
    socket. *)
Lemma never_sends_to_closed_socket_witness :
  is_open
    (fst (step Scenario.subscribed
            (Message "sock-c" (EVENT Scenario.free_note) 0))) "sock-b".
Proof.
  destruct (never_sends_to_closed_socket (X := Scenario.X)
              Scenario.subscribed
              (Message "sock-c" (EVENT Scenario.free_note) 0)
              relay_ok_scenario sock_c_open_scenario) as (H & _).
  apply (H "sock-b" (OutEVENT "feed" Scenario.free_note)). pick_member.
Defined.

Lemma close_stops_delivery_witness :
  ¬ In ("sock-b", OutEVENT "feed" Scenario.free_note)
       (snd (step (fst (step Scenario.subscribed
                          (Message "sock-b" (CLOSE "feed") 0)))
                  (Message "sock-c" (EVENT Scenario.free_note) 0))).
Proof.
  apply (close_stops_delivery (X := Scenario.X) Scenario.subscribed "sock-b"
           "feed" 0). apply relay_ok_scenario.
Defined.

Lemma only_readable_events_are_sent_witness :
  canRead
    (cap (fst (step Scenario.subscribed
                 (Message "sock-c" (EVENT Scenario.free_note) 0))))
    "sock-b" Scenario.free_note = true.
Proof.
  destruct (only_readable_events_are_sent (X := Scenario.X)
              Scenario.subscribed
              (Message "sock-c" (EVENT Scenario.free_note) 0)
              "sock-b" "feed" Scenario.free_note) as (H & _);
    [pick_member | exact H].
Defined.

Lemma free_note_accepted_scenario :
  accepted Scenario.subscribed "sock-c" Scenario.free_note = true.
Proof. vm_compute. reflexivity. Defined.

Lemma accepted_event_is_stored_and_fanned_out_witness :
  In (id Scenario.free_note, Scenario.free_note)
     (events (fst (step Scenario.subscribed
                     (Message "sock-c" (EVENT Scenario.free_note) 0)))).
Proof.
  destruct (accepted_event_is_stored_and_fanned_out (X := Scenario.X)
              Scenario.subscribed "sock-c" Scenario.free_note 0
              free_note_accepted_scenario) as (H & _).
  exact H.
Defined.

(** B asks for kinds 1 and 2 under "later"; C's note then reaches B under
    that id. *)
Lemma req_answers_from_the_store_witness :
  In ("sock-b", OutEVENT "later" Scenario.free_note)
     (snd (step (fst (step Scenario.subscribed
                        (Message "sock-b"
                                 (REQ (X := Scenario.X) "later" [num 1; num 2])
                                 0)))
                (Message "sock-c" (EVENT Scenario.free_note) 0))).
Proof.
  destruct (req_answers_from_the_store (X := Scenario.X) Scenario.subscribed
              "sock-b" "later" [num 1; num 2] 0) as (_ & _ & _ & _ & H).
  apply (H "sock-c" Scenario.free_note 0%Z free_note_accepted_scenario).
  vm_compute. reflexivity.
Defined.

Lemma no_double_delivery_witness :
  NoDup (snd (step Scenario.subscribed
                (Message "sock-c" (EVENT Scenario.free_note) 0))).
Proof.
  apply (no_double_delivery (X := Scenario.X) Scenario.subscribed "sock-c"
           Scenario.free_note 0 relay_ok_scenario).
Defined.

Lemma connect_challenge_round_trip_witness :
  AuthResult.ok
    (snd (handleAuth (X := Sample.X)
            (cap (fst (step (X := Sample.X) boot
                         (Connect "sock-b" "ch-b"))))
            "sock-b" Sample.authB_plain 0)) = true.
Proof.
  destruct (connect_challenge_round_trip (X := Sample.X) boot "sock-b"
              "ch-b") as (_ & H).
  apply (H Sample.authB_plain 0%Z eq_refl eq_refl eq_refl). reflexivity.
Defined.

Lemma republishing_replaces_in_place_witness :
  List.map fst
    (events (fst (step Scenario.subscribed
                    (Message "sock-a" (EVENT Sample.register_g) 0))))
  = List.map fst (events Scenario.subscribed).
Proof.
  destruct (republishing_replaces_in_place (X := Scenario.X)
              Scenario.subscribed "sock-a" Sample.register_g 0) as (_ & H).
  rewrite H; [reflexivity | vm_compute; reflexivity].
Defined.

Lemma record_changes_only_by_own_turns_witness :
  connections
    (cap (fst (step Scenario.subscribed
                 (Message "sock-c" (EVENT Scenario.free_note) 0))))
    !! "sock-b"
  = connections (cap Scenario.subscribed) !! "sock-b".
Proof.
  apply (record_changes_only_by_own_turns (X := Scenario.X)
           Scenario.subscribed
           (Message "sock-c" (EVENT Scenario.free_note) 0) "sock-b");
    intros; discriminate.
Defined.
